(** * miniflow: nodes, Kahn's topological sort and the forward pass

    A shallow embedding of [miniflow.py].  Python objects live in a heap
    indexed by their identity; a reference to a node is its index.  The
    methods of the [Node] classes and the two module-level functions
    [topological_sort] and [forward_pass] are heap transformers in an error
    monad.  The two [while] loops of [topological_sort] take fuel; the
    element returned by [set.pop] is chosen by an oracle. *)

From stdpp Require Import gmap list sorting.
From Stdlib Require Import ZArith Lia.


(** ** Outcomes of a Python computation *)

(** The exceptions at stake.  [TypeError] is also what the statement
    [raise NotImplemented] of [Node.forward] ends in: [NotImplemented] is a
    constant, not an exception class, and the interpreter refuses to raise
    it.  [NotImplementedError] is the exception class of that name; no
    statement of the modelled code raises it.  [BadRef] is the use of an
    identity that designates no object of the heap; Python references are
    never dangling, the model needs the case to be total. *)
Inductive exn : Set :=
  | TypeError
  | KeyError
  | IndexError
  | NotImplementedError
  | BadRef.

Inductive result (A : Type) : Type :=
  | Ok (a : A)
  | Raise (e : exn)
  | OutOfFuel.

Arguments Ok {A} a.
Arguments Raise {A} e.
Arguments OutOfFuel {A}.

#[export] Instance result_ret : MRet result := λ A a, Ok a.

#[export] Instance result_bind : MBind result := λ A B k c,
  match c with
  | Ok a => k a
  | Raise e => Raise e
  | OutOfFuel => OutOfFuel
  end.

(** ** The numeric operations used by the node classes

    [+] on values, [np.dot] and the expression [1./(1.+np.exp(-x))] are
    taken from outside; each may refuse its operands. *)
Class TensorMath (V : Type) : Type := {
  tm_add : V → V → option V;
  tm_dot : V → V → option V;
  tm_sigmoid : V → option V
}.

(** Python integers with [+].  What numpy makes of them in [np.dot] and in
    [_sigmoid] is not fixed here: both stay parameters. *)
Definition Z_math (np_dot : Z → Z → option Z) (sigmoid : Z → option Z)
  : TensorMath Z := {|
  tm_add := λ a b, Some (a + b)%Z;
  tm_dot := np_dot;
  tm_sigmoid := sigmoid
|}.

(** A free model of the three operations: results are kept as terms,
    nothing is computed and nothing is refused.  It serves to run [Linear]
    and [Sigmoid] nodes without fixing what numpy returns. *)
Inductive term : Set :=
  | Num (z : Z)
  | Plus (a b : term)
  | Dot (a b : term)
  | Sig (a : term).

Definition term_math : TensorMath term := {|
  tm_add := λ a b, Some (Plus a b);
  tm_dot := λ a b, Some (Dot a b);
  tm_sigmoid := λ a, Some (Sig a)
|}.

(** ** Nodes and the heap *)

(** The class of a node object: the base class and its four subclasses. *)
Inductive kind : Set := KNode | KInput | KAdd | KLinear | KSigmoid.

#[export] Instance kind_eq_dec : EqDecision kind.
Proof. solve_decision. Defined.

(** The attributes of a node.  The value slot holds [None] or a value. *)
Record node (V : Type) : Type := mk_node {
  nkind : kind;
  inbound_nodes : list nat;
  outbound_nodes : list nat;
  value : option V
}.

Arguments mk_node {V} _ _ _ _.
Arguments nkind {V} _.
Arguments inbound_nodes {V} _.
Arguments outbound_nodes {V} _.
Arguments value {V} _.

(** [G[n]] in [topological_sort]: [{'in': set(), 'out': set()}]. *)
Record ends : Set := mk_ends { ins : gset nat; outs : gset nat }.

Definition no_ends : ends := mk_ends ∅ ∅.

Section Miniflow.

Context {V : Type} {TM : TensorMath V}.

Abbreviation heap := (list (node V)).
Abbreviation graph := (gmap nat ends).

Definition deref (h : heap) (n : nat) : result (node V) :=
  match h !! n with
  | Some nd => Ok nd
  | None => Raise BadRef
  end.

Definition set_value (n : nat) (v : option V) (h : heap) : heap :=
  alter (λ nd, mk_node (nkind nd) (inbound_nodes nd) (outbound_nodes nd) v) n h.

Definition push_outbound (self : nat) (nd : node V) : node V :=
  mk_node (nkind nd) (inbound_nodes nd) (outbound_nodes nd ++ [self]) (value nd).

(** *** [Node.__init__] *)

(** [for n in self.inbound_nodes: n.outbound_nodes.append(self)] *)
Fixpoint link_inbound (self : nat) (inbound : list nat) (h : heap) : result heap :=
  match inbound with
  | [] => Ok h
  | n :: rest =>
    _ ← deref h n;
    link_inbound self rest (alter (push_outbound self) n h)
  end.

(** The new object takes the next identity.  Its attributes
    [inbound_nodes] and [outbound_nodes] are set before the loop; [value]
    is [None]. *)
Definition Node_init (k : kind) (inbound : list nat) (h : heap) : result (nat * heap) :=
  let self := length h in
  h' ← link_inbound self inbound (h ++ [mk_node k inbound [] None]);
  Ok (self, h').

Definition Node_new (inbound : list nat) (h : heap) := Node_init KNode inbound h.
Definition Input_new (h : heap) := Node_init KInput [] h.
Definition Add_new (x y : nat) (h : heap) := Node_init KAdd [x; y] h.
Definition Linear_new (inputs weights bias : nat) (h : heap) :=
  Node_init KLinear [inputs; weights; bias] h.
Definition Sigmoid_new (n : nat) (h : heap) := Node_init KSigmoid [n] h.

(** *** The [forward] methods *)

(** [self.inbound_nodes[i].value] *)
Definition inbound_value (h : heap) (nd : node V) (i : nat) : result (option V) :=
  match inbound_nodes nd !! i with
  | None => Raise IndexError
  | Some p => p' ← deref h p; Ok (value p')
  end.

(** A binary operation on two value slots; [None] is not a number. *)
Definition py_binop (op : V → V → option V) (a b : option V) : result V :=
  match a, b with
  | Some x, Some y =>
    match op x y with
    | Some v => Ok v
    | None => Raise TypeError
    end
  | _, _ => Raise TypeError
  end.

Definition py_unop (op : V → option V) (a : option V) : result V :=
  match a with
  | Some x =>
    match op x with
    | Some v => Ok v
    | None => Raise TypeError
    end
  | None => Raise TypeError
  end.

(** [raise NotImplemented] *)
Definition Node_forward (n : nat) (h : heap) : result heap :=
  Raise TypeError.

Definition Input_forward (n : nat) (arg : option V) (h : heap) : result heap :=
  match arg with
  | Some w => Ok (set_value n (Some w) h)
  | None => Ok h
  end.

Definition Add_forward (n : nat) (h : heap) : result heap :=
  self ← deref h n;
  xvalue ← inbound_value h self 0;
  yvalue ← inbound_value h self 1;
  v ← py_binop tm_add xvalue yvalue;
  Ok (set_value n (Some v) h).

Definition Linear_forward (n : nat) (h : heap) : result heap :=
  self ← deref h n;
  inputs ← inbound_value h self 0;
  weights ← inbound_value h self 1;
  bias ← inbound_value h self 2;
  d ← py_binop tm_dot inputs weights;
  output ← py_binop tm_add (Some d) bias;
  Ok (set_value n (Some output) h).

Definition Sigmoid_forward (n : nat) (h : heap) : result heap :=
  self ← deref h n;
  x ← inbound_value h self 0;
  v ← py_unop tm_sigmoid x;
  Ok (set_value n (Some v) h).

(** [n.forward()] with no argument, dispatched on the class of [n]. *)
Definition forward (n : nat) (h : heap) : result heap :=
  self ← deref h n;
  match nkind self with
  | KNode => Node_forward n h
  | KInput => Input_forward n None h
  | KAdd => Add_forward n h
  | KLinear => Linear_forward n h
  | KSigmoid => Sigmoid_forward n h
  end.

(** What [n.forward()] stores in the value slot of [n]: the slot as it is
    for an [Input] called with no argument, the computed value otherwise. *)
Definition node_value (h : heap) (n : nat) : result (option V) :=
  self ← deref h n;
  match nkind self with
  | KNode => Raise TypeError
  | KInput => Ok (value self)
  | KAdd =>
    xvalue ← inbound_value h self 0;
    yvalue ← inbound_value h self 1;
    v ← py_binop tm_add xvalue yvalue;
    Ok (Some v)
  | KLinear =>
    inputs ← inbound_value h self 0;
    weights ← inbound_value h self 1;
    bias ← inbound_value h self 2;
    d ← py_binop tm_dot inputs weights;
    output ← py_binop tm_add (Some d) bias;
    Ok (Some output)
  | KSigmoid =>
    x ← inbound_value h self 0;
    v ← py_unop tm_sigmoid x;
    Ok (Some v)
  end.

(** *** [topological_sort] *)

Definition lookupG (G : graph) (n : nat) : result ends :=
  match G !! n with
  | Some e => Ok e
  | None => Raise KeyError
  end.

(** [if n not in G: G[n] = {'in': set(), 'out': set()}] *)
Definition ensure (n : nat) (G : graph) : graph :=
  match G !! n with
  | Some _ => G
  | None => <[n := no_ends]> G
  end.

(** [G[n]['in']] and [G[n]['out']] read as sets, empty for a missing key. *)
Definition insG (G : graph) (n : nat) : gset nat :=
  match G !! n with
  | Some e => ins e
  | None => ∅
  end.

Definition outsG (G : graph) (n : nat) : gset nat :=
  match G !! n with
  | Some e => outs e
  | None => ∅
  end.

(** The [for] loop of the first [while] loop, without [nodes.append(m)]. *)
Fixpoint record_edges (n : nat) (ms : list nat) (G : graph) : result graph :=
  match ms with
  | [] => Ok G
  | m :: rest =>
    let G0 := ensure m G in
    gn ← lookupG G0 n;
    let G1 := <[n := mk_ends (ins gn) ({[m]} ∪ outs gn)]> G0 in
    gm ← lookupG G1 m;
    let G2 := <[m := mk_ends ({[n]} ∪ ins gm) (outs gm)]> G1 in
    record_edges n rest G2
  end.

(** The first [while] loop: [nodes] is the queue. *)
Fixpoint discover (fuel : nat) (h : heap) (nodes : list nat) (G : graph) : result graph :=
  match nodes with
  | [] => Ok G
  | n :: nodes' =>
    match fuel with
    | 0 => OutOfFuel
    | S fuel' =>
      self ← deref h n;
      G' ← record_edges n (outbound_nodes self) (ensure n G);
      discover fuel' h (nodes' ++ outbound_nodes self) G'
    end
  end.

(** The [for] loop of the second [while] loop.  [set.remove] raises
    [KeyError] when the element is absent. *)
Fixpoint release (n : nat) (ms : list nat) (G : graph) (ready : gset nat)
  : result (graph * gset nat) :=
  match ms with
  | [] => Ok (G, ready)
  | m :: rest =>
    gn ← lookupG G n;
    if decide (m ∈ outs gn) then
      let G1 := <[n := mk_ends (ins gn) (outs gn ∖ {[m]})]> G in
      gm ← lookupG G1 m;
      if decide (n ∈ ins gm) then
        let G2 := <[m := mk_ends (ins gm ∖ {[n]}) (outs gm)]> G1 in
        gm' ← lookupG G2 m;
        if decide (size (ins gm') = 0)
        then release n rest G2 ({[m]} ∪ ready)
        else release n rest G2 ready
      else Raise KeyError
    else Raise KeyError
  end.

(** [S.pop()]: some element of the set; the oracle says which. *)
Definition set_pop (choice : nat) (ready : gset nat) : option (nat * gset nat) :=
  match elements ready !! (choice mod size ready) with
  | Some n => Some (n, ready ∖ {[n]})
  | None => None
  end.

(** The body of the second [while] loop once [n = S.pop()] is known. *)
Definition emit (feed_dict : gmap nat (option V)) (n : nat) (h : heap)
    (G : graph) (ready : gset nat) (L : list nat)
  : result (heap * graph * gset nat * list nat) :=
  self ← deref h n;
  h' ← (if decide (nkind self = KInput) then
          match feed_dict !! n with
          | Some v => Ok (set_value n v h)
          | None => Raise KeyError
          end
        else Ok h);
  '(G', ready') ← release n (outbound_nodes self) G ready;
  Ok (h', G', ready', L ++ [n]).

(** The second [while] loop; [i] counts its iterations. *)
Fixpoint drain (fuel : nat) (oracle : nat → nat) (i : nat)
    (feed_dict : gmap nat (option V)) (h : heap) (G : graph)
    (ready : gset nat) (L : list nat) : result (list nat * heap) :=
  match set_pop (oracle i) ready with
  | None => Ok (L, h)
  | Some (n, ready') =>
    match fuel with
    | 0 => OutOfFuel
    | S fuel' =>
      '(h', G', ready'', L') ← emit feed_dict n h G ready' L;
      drain fuel' oracle (S i) feed_dict h' G' ready'' L'
    end
  end.

Definition topological_sort (fuel : nat) (oracle : nat → nat)
    (feed_dict : gmap nat (option V)) (h : heap) : result (list nat * heap) :=
  let input_nodes := (map_to_list feed_dict).*1 in
  G ← discover fuel h input_nodes ∅;
  drain fuel oracle 0 feed_dict h G (list_to_set input_nodes) [].

(** *** [forward_pass] *)

Fixpoint forward_all (sorted_nodes : list nat) (h : heap) : result heap :=
  match sorted_nodes with
  | [] => Ok h
  | n :: rest => h' ← forward n h; forward_all rest h'
  end.

Definition forward_pass (output_node : nat) (sorted_nodes : list nat) (h : heap)
  : result (option V * heap) :=
  h' ← forward_all sorted_nodes h;
  out ← deref h' output_node;
  Ok (value out, h').

(** ** The graph carried by the heap *)

(** [n.outbound_nodes] and [n.inbound_nodes] as total functions. *)
Definition succs (h : heap) (n : nat) : list nat :=
  match h !! n with
  | Some nd => outbound_nodes nd
  | None => []
  end.

Definition preds (h : heap) (n : nat) : list nat :=
  match h !! n with
  | Some nd => inbound_nodes nd
  | None => []
  end.

Definition kind_of (h : heap) (n : nat) : option kind := nkind <$> h !! n.

Definition slot (h : heap) (n : nat) : option V := h !! n ≫= value.

(** Number of occurrences of [x] in a list of references. *)
Definition occ (x : nat) (l : list nat) : nat := length (filter (λ y, y = x) l).

(** What [topological_sort] and the [forward] methods never touch. *)
Definition shape (nd : node V) : kind * list nat * list nat :=
  (nkind nd, inbound_nodes nd, outbound_nodes nd).

Definition same_links (h h' : heap) : Prop := shape <$> h = shape <$> h'.

(** The nodes reachable from the keys of the feed dictionary by successor
    links. *)
Inductive reachable (h : heap) (feed_dict : gmap nat (option V)) : nat → Prop :=
  | reach_fed n : n ∈ dom feed_dict → reachable h feed_dict n
  | reach_succ n m :
      reachable h feed_dict n → m ∈ succs h n → reachable h feed_dict m.

Definition edge (h : heap) (n m : nat) : Prop := m ∈ succs h n.

Definition acyclic (h : heap) (feed_dict : gmap nat (option V)) : Prop :=
  ∀ n, reachable h feed_dict n → ¬ tc (edge h) n n.

(** The invariant of a heap whose nodes were all made by the constructors:
    references designate objects, successor links mirror predecessor lists
    (with multiplicity), and an [Input] has no predecessor. *)
Record linked (h : heap) : Prop := mk_linked {
  linked_succs : ∀ n m, m ∈ succs h n → m < length h;
  linked_preds : ∀ n m, m ∈ preds h n → m < length h;
  linked_mirror : ∀ n m, occ m (succs h n) = occ n (preds h m);
  linked_input : ∀ n, kind_of h n = Some KInput → preds h n = []
}.

(** The keys of the feed dictionary are [Input] nodes of the heap. *)
Definition feeds_inputs (h : heap) (feed_dict : gmap nat (option V)) : Prop :=
  ∀ n, n ∈ dom feed_dict → kind_of h n = Some KInput.

(** [i] is the position of [n] in [L]. *)
Definition before (L : list nat) (n m : nat) : Prop :=
  ∃ i j, L !! i = Some n ∧ L !! j = Some m ∧ i < j.

(** ** Loop invariants of [topological_sort] *)

(** Every reachable reference designates an object. *)
Definition valid (h : heap) (feed_dict : gmap nat (option V)) : Prop :=
  ∀ x, reachable h feed_dict x → is_Some (h !! x).

(** What the first loop computes: the keys of [G] are the reachable nodes,
    [G[x]['out']] holds the successors of [x] and [G[x]['in']] its
    reachable predecessors. *)
Record graph_of (h : heap) (feed_dict : gmap nat (option V)) (G : graph) : Prop := {
  go_dom : ∀ x, x ∈ dom G ↔ reachable h feed_dict x;
  go_outs : ∀ x m, m ∈ outsG G x ↔ reachable h feed_dict x ∧ m ∈ succs h x;
  go_ins : ∀ x p, p ∈ insG G x ↔ reachable h feed_dict p ∧ x ∈ succs h p
}.

(** Invariant of the first loop; [P] is the set of nodes already taken from
    the queue [nodes]. *)
Record discover_inv (h : heap) (feed_dict : gmap nat (option V))
    (P : gset nat) (nodes : list nat) (G : graph) : Prop := {
  dv_dom : ∀ x, x ∈ dom G ↔ x ∈ P ∨ ∃ p, p ∈ P ∧ x ∈ succs h p;
  dv_outs : ∀ x m, m ∈ outsG G x ↔ x ∈ P ∧ m ∈ succs h x;
  dv_ins : ∀ x p, p ∈ insG G x ↔ p ∈ P ∧ x ∈ succs h p;
  dv_closed : ∀ p m, p ∈ P → m ∈ succs h p → m ∈ P ∨ m ∈ nodes;
  dv_reach : ∀ x, x ∈ P ∨ x ∈ nodes → reachable h feed_dict x;
  dv_fed : ∀ k, k ∈ dom feed_dict → k ∈ P ∨ k ∈ nodes
}.

(** The value fed to [x]: [feed_dict[x]]. *)
Definition fed (feed_dict : gmap nat (option V)) (x : nat) : option V :=
  default None (feed_dict !! x).

(** Invariant of the second loop at the head of an iteration.  [h] is the
    heap at the call, [ready] is [S] and [L] the output so far. *)
Record drain_inv (h : heap) (feed_dict : gmap nat (option V))
    (G : graph) (ready : gset nat) (L : list nat) : Prop := {
  di_nodup : NoDup L;
  di_ready : ∀ x, x ∈ ready → reachable h feed_dict x ∧ x ∉ L;
  di_done : ∀ x, x ∈ L → reachable h feed_dict x ∧ NoDup (succs h x);
  di_dom : ∀ x, reachable h feed_dict x → x ∈ dom G;
  di_ins : ∀ x p, reachable h feed_dict x →
    (p ∈ insG G x ↔ reachable h feed_dict p ∧ (p ∉ L) ∧ x ∈ succs h p);
  di_outs : ∀ x m, reachable h feed_dict x → x ∉ L →
    (m ∈ outsG G x ↔ m ∈ succs h x);
  di_avail : ∀ x, reachable h feed_dict x →
    (x ∈ ready ∨ x ∈ L ↔ insG G x = ∅);
  di_order : ∀ j m p, L !! j = Some m → reachable h feed_dict p →
    m ∈ succs h p → ∃ i, i < j ∧ L !! i = Some p
}.

(** Invariant of the inner [for] loop while [n] is being emitted; [done]
    is the part of [n.outbound_nodes] already gone through. *)
Record release_inv (h : heap) (feed_dict : gmap nat (option V))
    (n : nat) (L done : list nat) (G : graph) (ready : gset nat) : Prop := {
  ri_ready : ∀ x, x ∈ ready → reachable h feed_dict x ∧ (x ∉ L) ∧ x ≠ n;
  ri_dom : ∀ x, reachable h feed_dict x → x ∈ dom G;
  ri_ins : ∀ x p, reachable h feed_dict x →
    (p ∈ insG G x ↔
       (reachable h feed_dict p ∧ (p ∉ L) ∧ p ≠ n ∧ x ∈ succs h p)
       ∨ (p = n ∧ x ∈ succs h n ∧ x ∉ done));
  ri_outs_n : ∀ m, m ∈ outsG G n ↔ m ∈ succs h n ∧ m ∉ done;
  ri_outs : ∀ x m, reachable h feed_dict x → x ∉ L → x ≠ n →
    (m ∈ outsG G x ↔ m ∈ succs h x);
  ri_avail : ∀ x, reachable h feed_dict x →
    (x ∈ ready ∨ x ∈ L ∨ x = n ↔ insG G x = ∅)
}.

(** What [topological_sort] has established when it returns [L] and the
    heap [h']. *)
Record sorted_post (h : heap) (feed_dict : gmap nat (option V))
    (L : list nat) (h' : heap) : Prop := {
  sp_nodup : NoDup L;
  sp_done : ∀ x, x ∈ L → reachable h feed_dict x ∧ NoDup (succs h x);
  sp_avail : ∀ x, reachable h feed_dict x →
    (∀ p, reachable h feed_dict p → x ∈ succs h p → p ∈ L) → x ∈ L;
  sp_order : ∀ j m p, L !! j = Some m → reachable h feed_dict p →
    m ∈ succs h p → ∃ i, i < j ∧ L !! i = Some p;
  sp_links : same_links h h';
  sp_slot : ∀ x, slot h' x =
    if decide (x ∈ L ∧ kind_of h x = Some KInput) then fed feed_dict x
    else slot h x
}.

(** A node from which a cycle can be reached. *)
Definition loops (h : heap) (x : nat) : Prop :=
  ∃ c, rtc (edge h) x c ∧ tc (edge h) c c.

(** The number of walks that start at [x] and have at most [d] edges: a
    bound on the iterations of the first loop spent on [x]. *)
Fixpoint walks (h : heap) (d : nat) (x : nat) : nat :=
  match d with
  | 0 => 1
  | S d' => S (sum_list (walks h d' <$> succs h x))
  end.

(** The length of the longest walk from [x], cut at [d] edges. *)
Fixpoint height (h : heap) (d : nat) (x : nat) : nat :=
  match d with
  | 0 => 0
  | S d' => max_list ((λ m, S (height h d' m)) <$> succs h x)
  end.

(** [x :: l] is a walk along successor links. *)
Fixpoint is_walk (h : heap) (x : nat) (l : list nat) : Prop :=
  match l with
  | [] => True
  | y :: l' => y ∈ succs h x ∧ is_walk h y l'
  end.

(** The nodes of the walk [x :: l] that have a successor on it. *)
Fixpoint sources (x : nat) (l : list nat) : list nat :=
  match l with
  | [] => []
  | y :: l' => x :: sources y l'
  end.

(** How many entries of [inbound_nodes] the [forward] of a class reads. *)
Definition operands (k : kind) : nat :=
  match k with
  | KNode | KInput => 0
  | KAdd => 2
  | KLinear => 3
  | KSigmoid => 1
  end.

(** Every link goes from an older object to a newer one. *)
Definition ordered (h : heap) : Prop := ∀ a b, b ∈ succs h a → a < b.

(** An order for [forward_pass]: no node twice, and the predecessors of a
    node that are in the list stand before it. *)
Definition evaluation_order (h : heap) (L : list nat) : Prop :=
  NoDup L
  ∧ ∀ done m rest, L = done ++ m :: rest →
      ∀ p, p ∈ preds h m → p ∈ L → p ∈ done.

End Miniflow.

(** ** The worked example: [a = Input(); b = Input(); f = Add(a, b)] *)

Definition example_heap : result (list (node Z)) :=
  '(a, h) ← Input_new [];
  '(b, h) ← Input_new h;
  '(f, h) ← Add_new a b h;
  Ok h.

Definition example_feed : gmap nat (option Z) := {[ 0 := Some 5%Z; 1 := Some 10%Z ]}.

(** The heap [example_heap] evaluates to. *)
Definition example_h : list (node Z) :=
  [ mk_node KInput [] [2] None;
    mk_node KInput [] [2] None;
    mk_node KAdd [0; 1] [] None ].

(** [a = Input(); f = Add(a, a)]: the same predecessor listed twice. *)
Definition twice_h : list (node Z) :=
  [ mk_node KInput [] [1; 1] None;
    mk_node KAdd [0; 0] [] None ].

Definition twice_feed : gmap nat (option Z) := {[ 0 := Some 5%Z ]}.

(** A heap whose links were edited into a cycle: [a -> b -> c -> b]. *)
Definition cyclic_h : list (node Z) :=
  [ mk_node KInput [] [1] None;
    mk_node KAdd [0; 2] [2] None;
    mk_node KSigmoid [1] [1] None ].

Definition cyclic_feed : gmap nat (option Z) := {[ 0 := Some 1%Z ]}.

(** [x, w, b = Input(), Input(), Input(); l = Linear(x, w, b);
    s = Sigmoid(l)] over terms. *)
Definition network_heap : result (list (node term)) :=
  '(x, h) ← Input_new [];
  '(w, h) ← Input_new h;
  '(b, h) ← Input_new h;
  '(l, h) ← Linear_new x w b h;
  '(s, h) ← Sigmoid_new l h;
  Ok h.

(** The heap [network_heap] evaluates to. *)
Definition network_h : list (node term) :=
  [ mk_node KInput [] [3] None;
    mk_node KInput [] [3] None;
    mk_node KInput [] [3] None;
    mk_node KLinear [0; 1; 2] [4] None;
    mk_node KSigmoid [3] [] None ].

Definition network_feed : gmap nat (option term) :=
  {[ 0 := Some (Num 2); 1 := Some (Num 3); 2 := Some (Num 4) ]}.

(** [network_h] once the three inputs hold their fed values. *)
Definition network_fed : list (node term) :=
  [ mk_node KInput [] [3] (Some (Num 2));
    mk_node KInput [] [3] (Some (Num 3));
    mk_node KInput [] [3] (Some (Num 4));
    mk_node KLinear [0; 1; 2] [4] None;
    mk_node KSigmoid [3] [] None ].

(** [a = Input(); b = Input(); l = Linear(a, b, b)] with only [a] fed: the
    predecessor listed twice is not reachable from the feed. *)
Definition unfed_h : list (node Z) :=
  [ mk_node KInput [] [2] None;
    mk_node KInput [] [2; 2] None;
    mk_node KLinear [0; 1; 1] [] None ].

Definition unfed_feed : gmap nat (option Z) := {[ 0 := Some 1%Z ]}.

(** * Facts *)

Section Facts.

Context {V : Type} {TM : TensorMath V}.

Implicit Types (h : list (node V)) (feed_dict : gmap nat (option V)).
Implicit Types (G : gmap nat ends) (n m p x : nat) (L : list nat).

(** ** The error monad *)

Lemma bind_Ok {A B} (c : result A) (k : A → result B) (b : B) :
  c ≫= k = Ok b → ∃ a, c = Ok a ∧ k a = Ok b.
Proof. destruct c as [a| |]; simpl; [eauto | done | done]. Qed.

Lemma deref_Ok h n nd : deref h n = Ok nd ↔ h !! n = Some nd.
Proof. unfold deref. destruct (h !! n); split; congruence. Qed.

(** ** Writing a value slot *)

Lemma set_value_lookup n v h x :
  set_value n v h !! x =
    if decide (n = x)
    then (λ nd, mk_node (nkind nd) (inbound_nodes nd) (outbound_nodes nd) v) <$> h !! x
    else h !! x.
Proof.
  unfold set_value. case_decide as Hx.
  - subst. apply list_lookup_alter_eq.
  - by apply list_lookup_alter_ne.
Qed.

Lemma set_value_same_links n v h : same_links h (set_value n v h).
Proof.
  unfold same_links. apply list_eq. intros x.
  rewrite !list_lookup_fmap, set_value_lookup.
  case_decide; [|done]. by destruct (h !! x).
Qed.

Lemma set_value_slot n v h x :
  slot (set_value n v h) x =
    if decide (n = x ∧ x < length h) then v else slot h x.
Proof.
  unfold slot. rewrite set_value_lookup.
  destruct (h !! x) as [nd|] eqn:Hx.
  - apply lookup_lt_Some in Hx as Hlt.
    destruct (decide (n = x)); simpl.
    + by rewrite decide_True.
    + rewrite decide_False; [done | by intros [? _]].
  - apply lookup_ge_None in Hx.
    rewrite (decide_False (P := n = x ∧ x < length h)) by (intros [_ ?]; lia).
    by case_decide.
Qed.

Lemma same_links_refl h : same_links h h.
Proof. done. Qed.

Lemma same_links_trans h1 h2 h3 :
  same_links h1 h2 → same_links h2 h3 → same_links h1 h3.
Proof. unfold same_links. congruence. Qed.

Lemma same_links_lookup h h' x :
  same_links h h' → shape <$> h !! x = shape <$> h' !! x.
Proof. unfold same_links. intros E. by rewrite <- !list_lookup_fmap, E. Qed.

Lemma same_links_length h h' : same_links h h' → length h = length h'.
Proof.
  unfold same_links. intros E.
  by rewrite <- (length_fmap shape h), E, length_fmap.
Qed.

Lemma same_links_succs h h' x : same_links h h' → succs h' x = succs h x.
Proof.
  intros E. apply (same_links_lookup _ _ x) in E. unfold succs.
  destruct (h !! x) as [[]|], (h' !! x) as [[]|]; by simplify_eq/=.
Qed.

Lemma same_links_preds h h' x : same_links h h' → preds h' x = preds h x.
Proof.
  intros E. apply (same_links_lookup _ _ x) in E. unfold preds.
  destruct (h !! x) as [[]|], (h' !! x) as [[]|]; by simplify_eq/=.
Qed.

Lemma same_links_kind h h' x : same_links h h' → kind_of h' x = kind_of h x.
Proof.
  intros E. apply (same_links_lookup _ _ x) in E. unfold kind_of.
  destruct (h !! x) as [[]|], (h' !! x) as [[]|]; by simplify_eq/=.
Qed.

(** ** The [forward] methods *)

Lemma forward_same_links n h h' : forward n h = Ok h' → same_links h h'.
Proof.
  unfold forward. intros E. apply bind_Ok in E as (self & _ & E).
  destruct (nkind self).
  - done.
  - unfold Input_forward in E. by simplify_eq.
  - unfold Add_forward in E.
    repeat (apply bind_Ok in E as (? & _ & E)).
    simplify_eq. apply set_value_same_links.
  - unfold Linear_forward in E.
    repeat (apply bind_Ok in E as (? & _ & E)).
    simplify_eq. apply set_value_same_links.
  - unfold Sigmoid_forward in E.
    repeat (apply bind_Ok in E as (? & _ & E)).
    simplify_eq. apply set_value_same_links.
Qed.

Lemma forward_all_same_links L h h' : forward_all L h = Ok h' → same_links h h'.
Proof.
  revert h. induction L as [|n L IH]; intros h E; simpl in E.
  - by simplify_eq.
  - apply bind_Ok in E as (h1 & E1 & E).
    eapply same_links_trans; [by eapply forward_same_links | by apply IH].
Qed.

Lemma forward_pass_same_links out L h v h' :
  forward_pass out L h = Ok (v, h') → same_links h h'.
Proof.
  unfold forward_pass. intros E.
  apply bind_Ok in E as (h1 & E1 & E).
  apply bind_Ok in E as (nd & _ & E).
  simplify_eq. by eapply forward_all_same_links.
Qed.

(** ** The first loop: discovery *)

Lemma lookupG_Ok G n e : lookupG G n = Ok e ↔ G !! n = Some e.
Proof. unfold lookupG. destruct (G !! n); split; congruence. Qed.

Lemma insG_insert G k e x :
  insG (<[k := e]> G) x = if decide (k = x) then ins e else insG G x.
Proof.
  unfold insG. case_decide.
  - subst. by rewrite lookup_insert_eq.
  - by rewrite lookup_insert_ne.
Qed.

Lemma outsG_insert G k e x :
  outsG (<[k := e]> G) x = if decide (k = x) then outs e else outsG G x.
Proof.
  unfold outsG. case_decide.
  - subst. by rewrite lookup_insert_eq.
  - by rewrite lookup_insert_ne.
Qed.

Lemma insG_lookup G x e : G !! x = Some e → insG G x = ins e.
Proof. unfold insG. by intros ->. Qed.

Lemma outsG_lookup G x e : G !! x = Some e → outsG G x = outs e.
Proof. unfold outsG. by intros ->. Qed.

Lemma ensure_dom n G : dom (ensure n G) = {[n]} ∪ dom G.
Proof.
  unfold ensure. destruct (G !! n) eqn:E.
  - apply elem_of_dom_2 in E. set_solver.
  - by rewrite dom_insert_L.
Qed.

Lemma ensure_ins n G x : insG (ensure n G) x = insG G x.
Proof.
  unfold ensure. destruct (G !! n) eqn:E; [done|].
  rewrite insG_insert. case_decide; [|done].
  subst. unfold insG. by rewrite E.
Qed.

Lemma ensure_outs n G x : outsG (ensure n G) x = outsG G x.
Proof.
  unfold ensure. destruct (G !! n) eqn:E; [done|].
  rewrite outsG_insert. case_decide; [|done].
  subst. unfold outsG. by rewrite E.
Qed.

(** The effect of the inner [for] loop on [G]. *)
Lemma record_edges_spec n ms G :
  n ∈ dom G →
  ∃ G', record_edges n ms G = Ok G'
    ∧ dom G' = dom G ∪ list_to_set ms
    ∧ (∀ x, outsG G' x = outsG G x ∪ (if decide (x = n) then list_to_set ms else ∅))
    ∧ (∀ x, insG G' x = insG G x ∪ (if decide (x ∈ ms) then {[n]} else ∅)).
Proof.
  revert G. induction ms as [|m ms IH]; intros G Hn.
  { exists G. split; [done|]. split; [set_solver|].
    split; intros x; [case_decide | rewrite decide_False by set_solver]; set_solver. }
  simpl.
  assert (n ∈ dom (ensure m G)) as Hn0 by (rewrite ensure_dom; set_solver).
  apply elem_of_dom in Hn0 as [gn Hgn].
  assert (lookupG (ensure m G) n = Ok gn) as -> by by apply lookupG_Ok.
  simpl.
  set (G1 := <[n := mk_ends (ins gn) ({[m]} ∪ outs gn)]> (ensure m G)).
  assert (m ∈ dom G1) as Hm1.
  { unfold G1. rewrite dom_insert_L, ensure_dom. set_solver. }
  apply elem_of_dom in Hm1 as [gm Hgm].
  assert (lookupG G1 m = Ok gm) as -> by by apply lookupG_Ok.
  simpl.
  set (G2 := <[m := mk_ends ({[n]} ∪ ins gm) (outs gm)]> G1).
  assert (dom G2 = dom G ∪ {[m]}) as Hdom2.
  { unfold G2, G1. rewrite !dom_insert_L, ensure_dom. set_solver. }
  assert (∀ x, outsG G2 x = outsG G x ∪ (if decide (x = n) then {[m]} else ∅)) as Hout2.
  { intros x. unfold G2. rewrite outsG_insert. simpl.
    rewrite <- (outsG_lookup _ _ _ Hgm). unfold G1.
    assert (∀ y, outsG (<[n:={| ins := ins gn; outs := {[m]} ∪ outs gn |}]> (ensure m G)) y
            = outsG G y ∪ (if decide (y = n) then {[m]} else ∅)) as Hy.
    { intros y. rewrite outsG_insert. simpl.
      rewrite <- (outsG_lookup _ _ _ Hgn), !ensure_outs.
      repeat case_decide; subst; set_solver. }
    rewrite !Hy. case_decide as E; [by rewrite E | done]. }
  assert (∀ x, insG G2 x = insG G x ∪ (if decide (x = m) then {[n]} else ∅)) as Hin2.
  { intros x. unfold G2. rewrite insG_insert. simpl.
    rewrite <- (insG_lookup _ _ _ Hgm). unfold G1.
    assert (∀ y, insG (<[n:={| ins := ins gn; outs := {[m]} ∪ outs gn |}]> (ensure m G)) y
            = insG G y) as Hy.
    { intros y. rewrite insG_insert. simpl. rewrite <- (insG_lookup _ _ _ Hgn), !ensure_ins.
      by case_decide; subst. }
    rewrite !Hy. case_decide as E; [rewrite E|]; repeat case_decide; set_solver. }
  destruct (IH G2) as (G' & E & Hd & Ho & Hi).
  { rewrite Hdom2. set_solver. }
  exists G'. split; [done|]. split; [rewrite Hd, Hdom2; set_solver|].
  split; intros x.
  - rewrite Ho, Hout2. case_decide; set_solver.
  - rewrite Hi, Hin2. repeat case_decide; set_solver.
Qed.

Section Discover.

Variables (h : list (node V)) (feed_dict : gmap nat (option V)).

Lemma discover_inv_init :
  discover_inv h feed_dict ∅ (map_to_list feed_dict).*1 ∅.
Proof.
  split.
  - intros x. rewrite dom_empty_L. set_solver.
  - intros x m. unfold outsG. rewrite lookup_empty. set_solver.
  - intros x p. unfold insG. rewrite lookup_empty. set_solver.
  - set_solver.
  - intros x [Hx|Hx]; [set_solver|]. apply reach_fed.
    apply list_elem_of_fmap in Hx as ([k v] & -> & Hx).
    apply elem_of_map_to_list in Hx. by apply elem_of_dom_2 in Hx.
  - intros k Hk. right. apply elem_of_dom in Hk as [v Hv].
    apply list_elem_of_fmap. exists (k, v). split; [done|].
    by apply elem_of_map_to_list.
Qed.

Lemma discover_inv_step P n nodes G self :
  discover_inv h feed_dict P (n :: nodes) G →
  h !! n = Some self →
  ∃ G', record_edges n (outbound_nodes self) (ensure n G) = Ok G'
    ∧ discover_inv h feed_dict ({[n]} ∪ P) (nodes ++ outbound_nodes self) G'.
Proof.
  intros [Hdom Houts Hins Hcl Hre Hfed] Hn.
  destruct (record_edges_spec n (outbound_nodes self) (ensure n G))
    as (G' & E & Hd & Ho & Hi).
  { rewrite ensure_dom. set_solver. }
  exists G'. split; [done|].
  assert (succs h n = outbound_nodes self) as Hs by (unfold succs; by rewrite Hn).
  split.
  - intros x. rewrite Hd, ensure_dom, !elem_of_union, elem_of_singleton,
      elem_of_list_to_set, Hdom, <- Hs.
    split.
    + intros [[->|[?|(p & ? & ?)]]|?].
      * by left; left.
      * by left; right.
      * right. exists p. split; [by apply elem_of_union_r | done].
      * right. exists n. split; [by apply elem_of_union_l, elem_of_singleton | done].
    + intros [[->|?]|(p & [Hp|Hp]%elem_of_union & ?)].
      * by left; left.
      * by left; right; left.
      * apply elem_of_singleton in Hp as ->. by right.
      * left; right; right. by exists p.
  - intros x m. rewrite Ho, ensure_outs, elem_of_union, Houts, <- Hs.
    case_decide; set_solver.
  - intros x p. rewrite Hi, ensure_ins, elem_of_union, Hins, <- Hs.
    case_decide; set_solver.
  - intros p m [Hp|Hp]%elem_of_union Hm.
    + apply elem_of_singleton in Hp as ->. right. rewrite <- Hs. set_solver.
    + destruct (Hcl p m Hp Hm) as [?|Hq]; [set_solver|].
      apply elem_of_cons in Hq as [->|?]; set_solver.
  - intros x [Hx|Hx].
    + apply Hre. set_solver.
    + apply elem_of_app in Hx as [Hx|Hx]; [apply Hre; set_solver|].
      apply reach_succ with n; [apply Hre; set_solver | by rewrite Hs].
  - intros k Hk. destruct (Hfed k Hk) as [?|Hq]; [set_solver|].
    apply elem_of_cons in Hq as [->|?]; set_solver.
Qed.

Lemma discover_inv_final P G :
  discover_inv h feed_dict P [] G → graph_of h feed_dict G.
Proof.
  intros [Hdom Houts Hins Hcl Hre Hfed].
  assert (∀ x, reachable h feed_dict x → x ∈ P) as HP.
  { induction 1 as [k Hk|n m _ IH Hm].
    - destruct (Hfed k Hk) as [?|?]; [done | set_solver].
    - destruct (Hcl n m IH Hm) as [?|?]; [done | set_solver]. }
  split.
  - intros x. rewrite Hdom. split; [|by auto].
    intros [?|(p & ? & ?)]; [by auto|].
    apply reach_succ with p; auto.
  - intros x m. rewrite Houts. naive_solver.
  - intros x p. rewrite Hins. naive_solver.
Qed.

(** The first loop never raises on a valid heap, and what it returns is the
    reachable graph. *)
Lemma discover_spec fuel P nodes G :
  valid h feed_dict →
  discover_inv h feed_dict P nodes G →
  match discover fuel h nodes G with
  | Ok G' => graph_of h feed_dict G'
  | Raise _ => False
  | OutOfFuel => True
  end.
Proof.
  intros Hv. revert P nodes G.
  induction fuel as [|fuel IH]; intros P nodes G Hinv.
  - destruct nodes; simpl; [by eapply discover_inv_final | done].
  - destruct nodes as [|n nodes]; simpl; [by eapply discover_inv_final|].
    destruct (Hv n) as [self Hn]; [apply (dv_reach _ _ _ _ _ Hinv); set_solver|].
    assert (deref h n = Ok self) as -> by by apply deref_Ok.
    simpl.
    destruct (discover_inv_step _ _ _ _ _ Hinv Hn) as (G' & -> & Hinv').
    simpl. by eapply IH.
Qed.

Lemma record_edges_ensure_Ok n ms G :
  ∃ G', record_edges n ms (ensure n G) = Ok G'.
Proof.
  destruct (record_edges_spec n ms (ensure n G)) as (G' & E & _).
  - rewrite ensure_dom. set_solver.
  - eauto.
Qed.

(** Enough fuel: [c x] bounds the iterations caused by one queue entry [x]. *)
Lemma discover_fuel (c : nat → nat) fuel nodes G :
  valid h feed_dict →
  (∀ x, reachable h feed_dict x → S (sum_list (c <$> succs h x)) ≤ c x) →
  (∀ x, x ∈ nodes → reachable h feed_dict x) →
  sum_list (c <$> nodes) ≤ fuel →
  discover fuel h nodes G ≠ OutOfFuel.
Proof.
  intros Hv Hc. revert nodes G.
  induction fuel as [|fuel IH]; intros nodes G Hre Hsum.
  - destruct nodes as [|n nodes]; simpl; [done|].
    specialize (Hc n (Hre n (list_elem_of_here _ _))).
    change (sum_list (c <$> n :: nodes))
      with (c n + sum_list (c <$> nodes)) in Hsum. lia.
  - destruct nodes as [|n nodes]; simpl; [done|].
    assert (reachable h feed_dict n) as Hn by (apply Hre; set_solver).
    destruct (Hv n Hn) as [self Hself].
    assert (deref h n = Ok self) as -> by by apply deref_Ok.
    simpl.
    destruct (record_edges_ensure_Ok n (outbound_nodes self) G) as [G' ->].
    simpl.
    assert (succs h n = outbound_nodes self) as Hs by (unfold succs; by rewrite Hself).
    apply IH.
    + intros x [Hx|Hx]%elem_of_app; [apply Hre; set_solver|].
      apply reach_succ with n; [done | by rewrite Hs].
    + rewrite fmap_app, sum_list_with_app, <- Hs.
      specialize (Hc n Hn).
      change (sum_list (c <$> n :: nodes))
        with (c n + sum_list (c <$> nodes)) in Hsum. lia.
Qed.

Lemma loops_succ x : loops h x → ∃ m, m ∈ succs h x ∧ loops h m.
Proof.
  intros (c & Hxc & Hcc). destruct Hxc as [x|x y c Hxy Hyc].
  - inversion Hcc as [? ? Hxy|? y ? Hxy Hyx]; subst.
    + exists x. split; [done|]. by exists x.
    + exists y. split; [done|]. exists x. split; [by apply tc_rtc | done].
  - exists y. split; [done|]. by exists c.
Qed.

(** With a cycle ahead of some queue entry the first loop never ends:
    whatever the fuel, it is used up. *)
Lemma discover_diverges fuel nodes G :
  valid h feed_dict →
  (∀ x, x ∈ nodes → reachable h feed_dict x) →
  (∃ x, x ∈ nodes ∧ loops h x) →
  discover fuel h nodes G = OutOfFuel.
Proof.
  intros Hv. revert nodes G.
  induction fuel as [|fuel IH]; intros nodes G Hre (x & Hx & Hloop).
  - destruct nodes; [set_solver | done].
  - destruct nodes as [|n nodes]; [set_solver|]. simpl.
    assert (reachable h feed_dict n) as Hn by (apply Hre; set_solver).
    destruct (Hv n Hn) as [self Hself].
    assert (deref h n = Ok self) as -> by by apply deref_Ok.
    simpl.
    destruct (record_edges_ensure_Ok n (outbound_nodes self) G) as [G' ->].
    simpl.
    assert (succs h n = outbound_nodes self) as Hs by (unfold succs; by rewrite Hself).
    apply IH.
    + intros y [Hy|Hy]%elem_of_app; [apply Hre; set_solver|].
      apply reach_succ with n; [done | by rewrite Hs].
    + apply elem_of_cons in Hx as [->|Hx].
      * destruct (loops_succ _ Hloop) as (m & Hm & Hlm).
        exists m. split; [|done]. rewrite <- Hs. set_solver.
      * exists x. split; [set_solver | done].
Qed.

End Discover.

(** ** The second loop: draining the ready set *)

Lemma set_pop_Some k (S S' : gset nat) n :
  set_pop k S = Some (n, S') → n ∈ S ∧ S' = S ∖ {[n]}.
Proof.
  unfold set_pop. destruct (elements S !! _) as [x|] eqn:E; [|done].
  intros [= <- <-]. split; [|done].
  apply elem_of_elements. by eapply list_elem_of_lookup_2.
Qed.

Lemma set_pop_None k (S : gset nat) : set_pop k S = None → S = ∅.
Proof.
  unfold set_pop. destruct (elements S !! _) as [x|] eqn:E; [done|].
  intros _. apply lookup_ge_None in E.
  destruct (decide (size S = 0)) as [Hz|Hz].
  - by apply size_empty_iff, leibniz_equiv in Hz.
  - unfold size, set_size in *. simpl in *.
    pose proof (Nat.mod_upper_bound k (length (elements S)) Hz). lia.
Qed.

Section Drain.

Variables (h : list (node V)) (feed_dict : gmap nat (option V)).

Hypothesis Hvalid : valid h feed_dict.

(** A reachable [Input] is a key of the feed dictionary. *)
Hypothesis Hfed : ∀ x, reachable h feed_dict x →
  kind_of h x = Some KInput → x ∈ dom feed_dict.

Lemma release_inv_start G ready L n :
  drain_inv h feed_dict G ready L → n ∈ ready →
  release_inv h feed_dict n L [] G (ready ∖ {[n]}) ∧ n ∉ succs h n.
Proof.
  intros [Hnd Hrd Hdn Hdom Hins Houts Hav Hord] Hn.
  destruct (Hrd n Hn) as [Hrn HnL].
  split; [split|].
  - intros x [Hx Hxn]%elem_of_difference. destruct (Hrd x Hx). set_solver.
  - done.
  - intros x p Hx. rewrite Hins by done.
    destruct (decide (p = n)) as [->|]; set_solver.
  - intros m. rewrite Houts by done. set_solver.
  - intros x m Hx HxL _. by apply Houts.
  - intros x Hx. rewrite <- Hav by done.
    destruct (decide (x = n)) as [->|]; set_solver.
  - intros Hself.
    assert (n ∈ insG G n) as Hin by (apply Hins; auto).
    assert (insG G n = ∅) as E by (apply Hav; auto).
    set_solver.
Qed.

Lemma release_spec n L rest :
  ∀ done G ready,
  reachable h feed_dict n → n ∉ succs h n →
  succs h n = done ++ rest → NoDup done →
  release_inv h feed_dict n L done G ready →
  match release n rest G ready with
  | Ok (G', ready') =>
      release_inv h feed_dict n L (succs h n) G' ready' ∧ NoDup (succs h n)
  | Raise e => e = KeyError ∧ ¬ NoDup (succs h n)
  | OutOfFuel => False
  end.
Proof.
  induction rest as [|m rest IH]; intros done G ready Hrn Hself Hs Hnd Hinv.
  { simpl. rewrite app_nil_r in Hs. by rewrite Hs. }
  simpl.
  destruct Hinv as [Hrd Hdom Hins Houtn Houts Hav].
  assert (m ∈ succs h n) as Hm by (rewrite Hs; set_solver).
  assert (reachable h feed_dict m) as Hrm by by eapply reach_succ.
  assert (m ≠ n) as Hmn by (intros ->; done).
  pose proof (Hdom n Hrn) as [gn Hgn]%elem_of_dom.
  assert (lookupG G n = Ok gn) as -> by by apply lookupG_Ok.
  simpl.
  pose proof (outsG_lookup _ _ _ Hgn) as Eon.
  pose proof (insG_lookup _ _ _ Hgn) as Ein.
  destruct (decide (m ∈ outs gn)) as [Hmo|Hmo]; last first.
  { split; [done|]. rewrite <- Eon, Houtn in Hmo.
    rewrite Hs. rewrite NoDup_app. intros (_ & Hdisj & _).
    destruct (decide (m ∈ done)) as [Hd|Hd]; [|tauto].
    apply (Hdisj m Hd). set_solver. }
  rewrite <- Eon, Houtn in Hmo. destruct Hmo as [_ Hmd].
  set (G1 := <[n := mk_ends (ins gn) (outs gn ∖ {[m]})]> G).
  pose proof (Hdom m Hrm) as [gm Hgm]%elem_of_dom.
  assert (G1 !! m = Some gm) as Hgm1 by (unfold G1; by rewrite lookup_insert_ne).
  assert (lookupG G1 m = Ok gm) as -> by by apply lookupG_Ok.
  simpl.
  pose proof (insG_lookup _ _ _ Hgm) as Eim.
  pose proof (outsG_lookup _ _ _ Hgm) as Eom.
  assert (n ∈ ins gm) as Hnin.
  { rewrite <- Eim. apply Hins; [done|]. right. auto. }
  rewrite decide_True by done.
  set (G2 := <[m := mk_ends (ins gm ∖ {[n]}) (outs gm)]> G1).
  assert (lookupG G2 m = Ok (mk_ends (ins gm ∖ {[n]}) (outs gm))) as ->.
  { apply lookupG_Ok. unfold G2. by rewrite lookup_insert_eq. }
  simpl.
  assert (∀ x, insG G2 x = if decide (x = m) then insG G m ∖ {[n]} else insG G x) as Hi2.
  { intros x. unfold G2, G1. rewrite !insG_insert. simpl.
    repeat case_decide; subst; try done. by rewrite Eim. }
  assert (∀ x, outsG G2 x = if decide (x = n) then outsG G n ∖ {[m]} else outsG G x) as Ho2.
  { intros x. unfold G2, G1. rewrite !outsG_insert. simpl.
    repeat case_decide; subst; try done; by rewrite ?Eon, ?Eom. }
  assert (∀ x, x ∈ dom G → x ∈ dom G2) as Hd2.
  { intros x. unfold G2, G1. rewrite !dom_insert_L. set_solver. }
  assert (NoDup (done ++ [m])) as Hnd'.
  { apply NoDup_app. split; [done|]. split; [set_solver | apply NoDup_singleton]. }
  assert (succs h n = (done ++ [m]) ++ rest) as Hs' by by rewrite <- app_assoc.
  assert (m ∉ L) as HmL.
  { intros HmL. assert (insG G m = ∅) as E by (apply Hav; auto).
    rewrite Eim in E. rewrite E in Hnin. by apply elem_of_empty in Hnin. }
  assert (∀ ready', (∀ x, x ∈ ready' ↔ x ∈ ready ∨ (x = m ∧ insG G2 m = ∅)) →
          release_inv h feed_dict n L (done ++ [m]) G2 ready') as Hstep.
  { intros ready' Hr'. split.
    - intros x [Hx|[-> _]]%Hr'; [by apply Hrd | done].
    - auto.
    - intros x p Hx. rewrite Hi2. case_decide as Hxm.
      + subst x. rewrite elem_of_difference, Hins by done.
        rewrite elem_of_singleton, elem_of_app, list_elem_of_singleton.
        clear. naive_solver.
      + rewrite Hins by done.
        rewrite elem_of_app, list_elem_of_singleton. clear -Hxm. tauto.
    - intros m'. rewrite Ho2, decide_True by done.
      rewrite elem_of_difference, Houtn, elem_of_singleton,
        elem_of_app, list_elem_of_singleton. clear. tauto.
    - intros x m' Hx HxL Hxn. rewrite Ho2, decide_False by done. by apply Houts.
    - intros x Hx. rewrite Hr'. rewrite (Hi2 x), (Hi2 m), decide_True by done.
      case_decide as Hxm.
      + subst x. split; [|by auto].
        intros [[Hmr|?]|[?|?]]; try done.
        * assert (insG G m = ∅) as E by (apply Hav; auto).
          rewrite Eim in E. rewrite E in Hnin. by apply elem_of_empty in Hnin.
        * tauto.
      + rewrite <- Hav by done. tauto. }
  destruct (decide (size (ins gm ∖ {[n]}) = 0)) as [Hz|Hz].
  - apply size_empty_iff, leibniz_equiv in Hz.
    apply (IH (done ++ [m])); try done.
    apply Hstep. intros x. rewrite Hi2, decide_True, Eim by done. set_solver.
  - apply (IH (done ++ [m])); try done.
    apply Hstep. intros x. rewrite Hi2, decide_True, Eim by done.
    split; [by auto|]. intros [?|[_ E]]; [done|].
    rewrite E, size_empty in Hz. done.
Qed.

Lemma release_inv_finish G ready L n :
  drain_inv h feed_dict G ready L → n ∈ ready →
  ∀ G' ready',
  release_inv h feed_dict n L (succs h n) G' ready' → NoDup (succs h n) →
  drain_inv h feed_dict G' ready' (L ++ [n]).
Proof.
  intros [Hnd Hrd Hdn Hdom Hins Houts Hav Hord] Hn G' ready'
    [Hrd' Hdom' Hins' Houtn' Houts' Hav'] Hndn.
  destruct (Hrd n Hn) as [Hrn HnL].
  split.
  - apply NoDup_app. split; [done|]. split; [|apply NoDup_singleton].
    intros x Hx ->%list_elem_of_singleton. done.
  - intros x Hx. destruct (Hrd' x Hx) as (? & ? & ?). set_solver.
  - intros x [Hx| ->%list_elem_of_singleton]%elem_of_app; auto.
  - done.
  - intros x p Hx. rewrite Hins' by done. set_solver.
  - intros x m Hx HxL. apply Houts'; set_solver.
  - intros x Hx. rewrite <- Hav' by done. set_solver.
  - intros j m p Hj Hp Hm.
    destruct (decide (j < length L)) as [Hlt|Hge].
    + rewrite lookup_app_l in Hj by done.
      destruct (Hord j m p Hj Hp Hm) as (i & Hi & Hip).
      exists i. split; [done|]. rewrite lookup_app_l by lia. done.
    + assert (m = n) as ->.
      { rewrite lookup_app_r in Hj by lia.
        destruct (j - length L) as [|k]; simpl in Hj; [congruence|].
        by rewrite lookup_nil in Hj. }
      assert (j = length L) as ->.
      { apply lookup_lt_Some in Hj. rewrite length_app in Hj. simpl in Hj. lia. }
      assert (p ∈ L) as HpL.
      { destruct (decide (p ∈ L)) as [|HpL]; [done|].
        assert (p ∈ insG G n) as Hin by (apply Hins; auto).
        assert (insG G n = ∅) as E by (apply Hav; auto).
        set_solver. }
      apply list_elem_of_lookup in HpL as [i Hi].
      exists i. split; [by eapply lookup_lt_Some|].
      rewrite lookup_app_l; [done | by eapply lookup_lt_Some].
Qed.

(** One iteration of the second loop. *)
Lemma emit_spec G ready L n hc :
  drain_inv h feed_dict G ready L → n ∈ ready → same_links h hc →
  match emit feed_dict n hc G (ready ∖ {[n]}) L with
  | Ok (hc', G', ready', L') =>
      L' = L ++ [n] ∧ drain_inv h feed_dict G' ready' L'
      ∧ same_links h hc'
      ∧ ∀ x, slot hc' x =
          if decide (x = n ∧ kind_of h n = Some KInput) then fed feed_dict n
          else slot hc x
  | Raise e =>
      e = KeyError ∧ ∃ x, reachable h feed_dict x ∧ ¬ NoDup (succs h x)
  | OutOfFuel => False
  end.
Proof.
  intros Hinv Hn Hlinks. unfold emit.
  destruct (di_ready _ _ _ _ _ Hinv n Hn) as [Hrn HnL].
  destruct (Hvalid n Hrn) as [nd0 Hnd0].
  assert (n < length hc) as Hlen.
  { rewrite <- (same_links_length _ _ Hlinks). by eapply lookup_lt_Some. }
  destruct (lookup_lt_is_Some_2 hc n Hlen) as [self Hself].
  assert (deref hc n = Ok self) as -> by by apply deref_Ok.
  simpl.
  assert (outbound_nodes self = succs h n) as ->.
  { rewrite <- (same_links_succs _ _ n Hlinks). unfold succs. by rewrite Hself. }
  assert (kind_of h n = Some (nkind self)) as Hk.
  { rewrite <- (same_links_kind _ _ n Hlinks). unfold kind_of. by rewrite Hself. }
  destruct (release_inv_start _ _ _ _ Hinv Hn) as [Hri Hnself].
  pose proof (release_spec n L (succs h n) [] G (ready ∖ {[n]}) Hrn Hnself
    eq_refl (NoDup_nil_2) Hri) as Hrel.
  destruct (decide (nkind self = KInput)) as [Hin|Hin].
  - rewrite Hin in Hk.
    pose proof (Hfed n Hrn Hk) as [v Hv]%elem_of_dom.
    rewrite Hv. simpl.
    destruct (release n (succs h n) G (ready ∖ {[n]})) as [[G' ready']|e|];
      simpl; [|destruct Hrel as [-> Hdup]; split; [done | by exists n]|done].
    destruct Hrel as [Hri' Hnd'].
    split; [done|]. split; [by eapply release_inv_finish|].
    split; [eapply same_links_trans; [done | apply set_value_same_links]|].
    intros x. rewrite set_value_slot. unfold fed. rewrite Hv. simpl.
    repeat case_decide; try done; naive_solver.
  - simpl.
    destruct (release n (succs h n) G (ready ∖ {[n]})) as [[G' ready']|e|];
      simpl; [|destruct Hrel as [-> Hdup]; split; [done | by exists n]|done].
    destruct Hrel as [Hri' Hnd'].
    split; [done|]. split; [by eapply release_inv_finish|].
    split; [done|].
    intros x. rewrite decide_False; [done|]. intros [_ ?]. congruence.
Qed.

Lemma drain_inv_final G L hc :
  drain_inv h feed_dict G ∅ L → same_links h hc →
  (∀ x, slot hc x =
     if decide (x ∈ L ∧ kind_of h x = Some KInput) then fed feed_dict x
     else slot h x) →
  sorted_post h feed_dict L hc.
Proof.
  intros [Hnd Hrd Hdn Hdom Hins Houts Hav Hord] Hlinks Hslot.
  split; try done.
  intros x Hx Hpreds.
  assert (insG G x = ∅) as E.
  { apply set_eq. intros p. rewrite Hins by done. split; [|set_solver].
    intros (Hp & HpL & Hxp). destruct HpL. by apply Hpreds. }
  apply Hav in E; [|done]. set_solver.
Qed.

Section Fuel.

Variable Rset : gset nat.

Hypothesis HR : ∀ x, x ∈ Rset ↔ reachable h feed_dict x.

Lemma drain_inv_room G ready L n :
  drain_inv h feed_dict G ready L → n ∈ ready → length L < size Rset.
Proof.
  intros Hinv Hn.
  destruct (di_ready _ _ _ _ _ Hinv n Hn) as [Hrn HnL].
  assert (n :: L ⊆+ elements Rset) as Hsub.
  { apply NoDup_submseteq.
    - apply NoDup_cons. split; [done | apply (di_nodup _ _ _ _ _ Hinv)].
    - intros x [->|Hx]%elem_of_cons; apply elem_of_elements, HR; [done|].
      by apply (di_done _ _ _ _ _ Hinv). }
  apply submseteq_length in Hsub. simpl in Hsub.
  unfold size, set_size. simpl. lia.
Qed.

(** The second loop: what it returns, how it can fail, and when the fuel
    does not suffice. *)
Lemma drain_spec fuel oracle :
  ∀ i hc G ready L,
  drain_inv h feed_dict G ready L → same_links h hc →
  (∀ x, slot hc x =
     if decide (x ∈ L ∧ kind_of h x = Some KInput) then fed feed_dict x
     else slot h x) →
  match drain fuel oracle i feed_dict hc G ready L with
  | Ok (L', h') => sorted_post h feed_dict L' h'
  | Raise e =>
      e = KeyError ∧ ∃ x, reachable h feed_dict x ∧ ¬ NoDup (succs h x)
  | OutOfFuel => fuel + length L < size Rset
  end.
Proof.
  induction fuel as [|fuel IH]; intros i hc G ready L Hinv Hlinks Hslot.
  - simpl. destruct (set_pop (oracle i) ready) as [[n ready']|] eqn:Hpop.
    + apply set_pop_Some in Hpop as [Hn _]. simpl. by eapply drain_inv_room.
    + apply set_pop_None in Hpop as ->. by eapply drain_inv_final.
  - simpl. destruct (set_pop (oracle i) ready) as [[n ready']|] eqn:Hpop.
    + apply set_pop_Some in Hpop as [Hn ->].
      pose proof (emit_spec G ready L n hc Hinv Hn Hlinks) as Hemit.
      destruct (emit feed_dict n hc G (ready ∖ {[n]}) L)
        as [[[[hc' G'] ready'] L']|e|]; simpl; [|done|done].
      destruct Hemit as (-> & Hinv' & Hlinks' & Hslot').
      specialize (IH (S i) hc' G' ready' (L ++ [n]) Hinv' Hlinks').
      destruct (drain fuel oracle (S i) feed_dict hc' G' ready' (L ++ [n]))
        as [[L' h']|e|].
      * apply IH. intros x. rewrite Hslot', Hslot.
        destruct (decide (x = n)) as [->|Hxn].
        -- destruct (di_ready _ _ _ _ _ Hinv n Hn) as [_ HnL].
           repeat case_decide; try done; set_solver.
        -- repeat case_decide; try done; set_solver.
      * apply IH. intros x. rewrite Hslot', Hslot.
        destruct (decide (x = n)) as [->|Hxn].
        -- destruct (di_ready _ _ _ _ _ Hinv n Hn) as [_ HnL].
           repeat case_decide; try done; set_solver.
        -- repeat case_decide; try done; set_solver.
      * assert (fuel + length (L ++ [n]) < size Rset) as Hlt.
        { apply IH. intros x. rewrite Hslot', Hslot.
          destruct (decide (x = n)) as [->|Hxn].
          - destruct (di_ready _ _ _ _ _ Hinv n Hn) as [_ HnL].
            repeat case_decide; try done; set_solver.
          - repeat case_decide; try done; set_solver. }
        rewrite length_app in Hlt. simpl in Hlt. lia.
    + apply set_pop_None in Hpop as ->. by eapply drain_inv_final.
Qed.

End Fuel.

End Drain.

(** ** [topological_sort] as a whole *)

Lemma elem_of_keys feed_dict x :
  x ∈ (map_to_list feed_dict).*1 ↔ x ∈ dom feed_dict.
Proof.
  rewrite list_elem_of_fmap, elem_of_dom. split.
  - intros ([k v] & -> & Hkv). apply elem_of_map_to_list in Hkv. by exists v.
  - intros [v Hv]. exists (x, v). split; [done|]. by apply elem_of_map_to_list.
Qed.

Section Sort.

Variables (h : list (node V)) (feed_dict : gmap nat (option V)).

Hypothesis Hvalid : valid h feed_dict.

Hypothesis Hfed : ∀ x, reachable h feed_dict x →
  kind_of h x = Some KInput → x ∈ dom feed_dict.

(** No key of the feed dictionary is a successor of a reachable node. *)
Hypothesis Hsrc : ∀ k p, k ∈ dom feed_dict →
  reachable h feed_dict p → k ∉ succs h p.

Lemma drain_inv_init G :
  graph_of h feed_dict G →
  drain_inv h feed_dict G (list_to_set (map_to_list feed_dict).*1) [].
Proof.
  intros [Hdom Houts Hins]. split.
  - apply NoDup_nil_2.
  - intros x Hx. rewrite elem_of_list_to_set, elem_of_keys in Hx.
    split; [by apply reach_fed | set_solver].
  - set_solver.
  - intros x. by rewrite Hdom.
  - intros x p _. rewrite Hins. set_solver.
  - intros x m Hx _. rewrite Houts. tauto.
  - intros x Hx. rewrite elem_of_list_to_set, elem_of_keys. split.
    + intros [Hk|?]; [|set_solver]. apply set_eq. intros p.
      rewrite Hins. split; [|set_solver]. intros [Hp Hxp].
      by destruct (Hsrc x p).
    + intros E. left. destruct Hx as [x Hx|n x Hn Hx]; [done|].
      assert (n ∈ insG G x) as Hin by (apply Hins; auto). set_solver.
  - intros j m p Hj. by rewrite lookup_nil in Hj.
Qed.

Lemma topological_sort_spec fuel oracle :
  match topological_sort fuel oracle feed_dict h with
  | Ok (L, h') => sorted_post h feed_dict L h'
  | Raise e =>
      e = KeyError ∧ ∃ x, reachable h feed_dict x ∧ ¬ NoDup (succs h x)
  | OutOfFuel => True
  end.
Proof.
  unfold topological_sort.
  pose proof (discover_spec h feed_dict fuel ∅ _ ∅ Hvalid
    (discover_inv_init h feed_dict)) as Hd.
  destruct (discover fuel h (map_to_list feed_dict).*1 ∅) as [G|e|];
    simpl; [|done|done].
  pose proof (drain_spec h feed_dict Hvalid Hfed (dom G) (go_dom _ _ _ Hd)
    fuel oracle 0 h G _ [] (drain_inv_init G Hd) (same_links_refl h)) as Hdr.
  destruct (drain fuel oracle 0 feed_dict h G _ []) as [[L h']|e|];
    [|apply Hdr|done].
  - apply Hdr. intros x. rewrite decide_False; [done|].
    intros [Hx _]. by apply elem_of_nil in Hx.
  - intros x. rewrite decide_False; [done|].
    intros [Hx _]. by apply elem_of_nil in Hx.
Qed.

(** Enough fuel for both loops. *)
Lemma topological_sort_fuel (c : nat → nat) (Rset : gset nat) fuel oracle :
  (∀ x, reachable h feed_dict x → S (sum_list (c <$> succs h x)) ≤ c x) →
  (∀ x, x ∈ Rset ↔ reachable h feed_dict x) →
  sum_list (c <$> (map_to_list feed_dict).*1) ≤ fuel →
  size Rset ≤ fuel →
  topological_sort fuel oracle feed_dict h ≠ OutOfFuel.
Proof.
  intros Hc HR Hf1 Hf2. unfold topological_sort.
  pose proof (discover_spec h feed_dict fuel ∅ _ ∅ Hvalid
    (discover_inv_init h feed_dict)) as Hd.
  pose proof (discover_fuel h feed_dict c fuel (map_to_list feed_dict).*1 ∅
    Hvalid Hc) as Hdf.
  destruct (discover fuel h (map_to_list feed_dict).*1 ∅) as [G|e|];
    simpl; [|done|].
  - pose proof (drain_spec h feed_dict Hvalid Hfed Rset HR
      fuel oracle 0 h G _ [] (drain_inv_init G Hd) (same_links_refl h)) as Hdr.
    destruct (drain fuel oracle 0 feed_dict h G _ []) as [[L h']|e|];
      [done|done|].
    intros _.
    assert (fuel + length (@nil nat) < size Rset) as Hlt; [|simpl in Hlt; lia].
    apply Hdr. intros x. rewrite decide_False; [done|].
    intros [Hx _]. by apply elem_of_nil in Hx.
  - exfalso. apply Hdf; [|done|done].
    intros x Hx%elem_of_keys. by apply reach_fed.
Qed.

End Sort.

(** ** Heaps made by the constructors give the graph what the loops need *)

Lemma occ_app x (l k : list nat) : occ x (l ++ k) = occ x l + occ x k.
Proof. unfold occ. by rewrite filter_app, length_app. Qed.

Lemma occ_cons x y (l : list nat) :
  occ x (y :: l) = (if decide (y = x) then 1 else 0) + occ x l.
Proof. unfold occ. rewrite filter_cons. by case_decide. Qed.

Lemma occ_replicate x y k :
  occ x (replicate k y) = if decide (y = x) then k else 0.
Proof.
  induction k as [|k IH]; simpl; [by case_decide|].
  rewrite occ_cons, IH. case_decide; lia.
Qed.

Lemma elem_of_occ x (l : list nat) : x ∈ l ↔ 0 < occ x l.
Proof.
  induction l as [|y l IH].
  - split; [by intros ?%elem_of_nil | unfold occ; simpl; lia].
  - rewrite elem_of_cons, occ_cons, IH. case_decide as E.
    + split; [lia | intros _; by left].
    + split; [intros [->|?]; [done | lia] | intros ?; right; lia].
Qed.

Lemma linked_valid h feed_dict :
  linked h → feeds_inputs h feed_dict → valid h feed_dict.
Proof.
  intros Hl Hf x Hx. destruct Hx as [x Hx|n x _ Hx].
  - apply Hf in Hx. unfold kind_of in Hx. by destruct (h !! x).
  - apply lookup_lt_is_Some_2. by eapply linked_succs.
Qed.

Lemma linked_input_no_pred h n p :
  linked h → kind_of h n = Some KInput → n ∉ succs h p.
Proof.
  intros Hl Hk Hn. apply elem_of_occ in Hn.
  rewrite (linked_mirror _ Hl), (linked_input _ Hl n Hk) in Hn.
  unfold occ in Hn. simpl in Hn. lia.
Qed.

Lemma linked_fed h feed_dict x :
  linked h → reachable h feed_dict x →
  kind_of h x = Some KInput → x ∈ dom feed_dict.
Proof.
  intros Hl Hx Hk. destruct Hx as [x Hx|n x _ Hx]; [done|].
  by destruct (linked_input_no_pred h x n).
Qed.

Lemma linked_sources h feed_dict k p :
  linked h → feeds_inputs h feed_dict → k ∈ dom feed_dict → k ∉ succs h p.
Proof. intros Hl Hf Hk. apply linked_input_no_pred; auto. Qed.

(** ** An acyclic graph has a rank that decreases along every edge *)

Section Rank.

Variables (h : list (node V)) (feed_dict : gmap nat (option V)).

Lemma max_list_ge k (l : list nat) : S k ≤ max_list l → ∃ y, y ∈ l ∧ S k ≤ y.
Proof.
  induction l as [|y l IH]; simpl; [lia|]. intros Hk.
  destruct (decide (S k ≤ y)) as [|Hy].
  - exists y. split; [by left | done].
  - destruct IH as (z & Hz & Hkz); [lia|]. exists z. split; [by right | done].
Qed.

Lemma height_stable d : ∀ x, height h d x < d → height h (S d) x = height h d x.
Proof.
  induction d as [|d IH]; intros x Hx; [lia|].
  change (height h (S (S d)) x) with
    (max_list ((λ m, S (height h (S d) m)) <$> succs h x)).
  change (height h (S d) x) with
    (max_list ((λ m, S (height h d m)) <$> succs h x)) in *.
  f_equal. apply list_fmap_ext. intros i m Hm. f_equal. apply IH.
  assert (S (height h d m) ∈ (λ m, S (height h d m)) <$> succs h x) as Hin.
  { apply list_elem_of_fmap. exists m. split; [done|].
    by eapply list_elem_of_lookup_2. }
  apply max_list_elem_of_le in Hin. lia.
Qed.

Lemma height_walk d : ∀ x k, k ≤ height h d x →
  ∃ l, length l = k ∧ is_walk h x l.
Proof.
  induction d as [|d IH]; intros x k Hk.
  - simpl in Hk. exists []. split; [simpl; lia | done].
  - destruct k as [|k]; [by exists []|].
    simpl in Hk. apply max_list_ge in Hk as (y & Hy & Hky).
    apply list_elem_of_fmap in Hy as (m & -> & Hm).
    destruct (IH m k) as (l & Hlen & Hw); [lia|].
    exists (m :: l). split; [simpl; lia | done].
Qed.

Lemma walk_tc x l z : is_walk h x l → z ∈ l → tc (edge h) x z.
Proof.
  revert x. induction l as [|y l IH]; intros x Hw Hz; [by apply elem_of_nil in Hz|].
  destruct Hw as [Hy Hw]. apply elem_of_cons in Hz as [->|Hz].
  - by apply tc_once.
  - eapply tc_l; [apply Hy | by apply IH].
Qed.

Lemma walk_reachable x l z :
  reachable h feed_dict x → is_walk h x l → z ∈ l → reachable h feed_dict z.
Proof.
  revert x. induction l as [|y l IH]; intros x Hx Hw Hz; [by apply elem_of_nil in Hz|].
  destruct Hw as [Hy Hw].
  assert (reachable h feed_dict y) as Hry by by eapply reach_succ.
  apply elem_of_cons in Hz as [->|Hz]; [done|]. by eapply IH.
Qed.

Lemma walk_nodup x l :
  acyclic h feed_dict → reachable h feed_dict x → is_walk h x l → NoDup (x :: l).
Proof.
  intros Hac. revert x. induction l as [|y l IH]; intros x Hx Hw.
  - apply NoDup_singleton.
  - apply NoDup_cons. split.
    + intros Hin. apply (Hac x Hx). by eapply walk_tc.
    + destruct Hw as [Hy Hw]. apply IH; [by eapply reach_succ | done].
Qed.

Lemma sources_spec x l :
  is_walk h x l →
  length (sources x l) = length l
  ∧ sources x l `sublist_of` x :: l
  ∧ ∀ y, y ∈ sources x l → y < length h.
Proof.
  revert x. induction l as [|y l IH]; intros x Hw; simpl.
  - split; [done|]. split; [apply sublist_nil_l | set_solver].
  - destruct Hw as [Hy Hw]. destruct (IH y Hw) as (Hlen & Hsub & Hb).
    split; [by rewrite Hlen|]. split; [by apply sublist_skip|].
    intros z [->|Hz]%elem_of_cons; [|by auto].
    unfold succs in Hy. destruct (h !! x) eqn:E; [|by apply elem_of_nil in Hy].
    by eapply lookup_lt_Some.
Qed.

Lemma walk_short x l :
  acyclic h feed_dict → reachable h feed_dict x → is_walk h x l →
  length l ≤ length h.
Proof.
  intros Hac Hx Hw. destruct (sources_spec x l Hw) as (Hlen & Hsub & Hb).
  assert (NoDup (sources x l)) as Hnd.
  { eapply sublist_NoDup; [by apply walk_nodup | exact Hsub]. }
  assert (sources x l ⊆+ seq 0 (length h)) as Hsm.
  { apply NoDup_submseteq; [done|]. intros y Hy. apply elem_of_seq.
    specialize (Hb y Hy). lia. }
  apply submseteq_length in Hsm. rewrite length_seq in Hsm. lia.
Qed.

(** The rank of a node: the length of the longest walk that leaves it. *)
Lemma acyclic_rank :
  acyclic h feed_dict →
  ∀ n m, reachable h feed_dict n → m ∈ succs h n →
  height h (S (length h)) m < height h (S (length h)) n.
Proof.
  intros Hac n m Hn Hm.
  assert (∀ x, reachable h feed_dict x → height h (S (length h)) x ≤ length h) as Hb.
  { intros x Hx.
    destruct (height_walk (S (length h)) x (height h (S (length h)) x))
      as (l & Hlen & Hw); [done|].
    rewrite <- Hlen. by eapply walk_short. }
  rewrite <- (height_stable (S (length h)) n) by (specialize (Hb n Hn); lia).
  change (height h (S (S (length h))) n) with
    (max_list ((λ m, S (height h (S (length h)) m)) <$> succs h n)).
  assert (S (height h (S (length h)) m)
          ∈ (λ m, S (height h (S (length h)) m)) <$> succs h n) as Hin.
  { apply list_elem_of_fmap. by exists m. }
  apply max_list_elem_of_le in Hin. lia.
Qed.

Lemma height_bound x :
  acyclic h feed_dict → reachable h feed_dict x →
  height h (S (length h)) x ≤ length h.
Proof.
  intros Hac Hx.
  destruct (height_walk (S (length h)) x (height h (S (length h)) x))
    as (l & Hlen & Hw); [done|].
  rewrite <- Hlen. by eapply walk_short.
Qed.

Lemma sum_list_fmap_le (f g : nat → nat) (l : list nat) :
  (∀ x, x ∈ l → f x ≤ g x) → sum_list (f <$> l) ≤ sum_list (g <$> l).
Proof.
  induction l as [|y l IH]; intros Hfg; [done|].
  rewrite !fmap_cons.
  change (sum_list (f y :: (f <$> l))) with (f y + sum_list (f <$> l)).
  change (sum_list (g y :: (g <$> l))) with (g y + sum_list (g <$> l)).
  pose proof (Hfg y (list_elem_of_here _ _)) as Hy.
  assert (sum_list (f <$> l) ≤ sum_list (g <$> l)); [|lia].
  apply IH. intros x Hx. apply Hfg. by right.
Qed.

Lemma walks_mono d d' x : d ≤ d' → walks h d x ≤ walks h d' x.
Proof.
  revert d' x. induction d as [|d IH]; intros d' x Hd.
  - destruct d'; simpl; lia.
  - destruct d' as [|d']; [lia|]. simpl.
    apply le_n_S, sum_list_fmap_le. intros m _. apply IH. lia.
Qed.

(** The cost of a queue entry in the first loop. *)
Lemma walks_cost x :
  acyclic h feed_dict → reachable h feed_dict x →
  S (sum_list ((λ y, walks h (height h (S (length h)) y) y) <$> succs h x))
  ≤ walks h (height h (S (length h)) x) x.
Proof.
  intros Hac Hx.
  destruct (height h (S (length h)) x) as [|d] eqn:E.
  - destruct (succs h x) as [|m l] eqn:Es; [simpl; lia|].
    assert (m ∈ succs h x) as Hm by (rewrite Es; by left).
    pose proof (acyclic_rank Hac x m Hx Hm) as Hlt. rewrite E in Hlt.
    exfalso. clear -Hlt. lia.
  - change (walks h (S d) x) with (S (sum_list (walks h d <$> succs h x))).
    apply le_n_S, sum_list_fmap_le. intros m Hm.
    apply walks_mono. pose proof (acyclic_rank Hac x m Hx Hm) as Hlt.
    rewrite E in Hlt. lia.
Qed.

(** On an acyclic graph nothing reachable is left out of the output. *)
Lemma sorted_complete L h' :
  acyclic h feed_dict → sorted_post h feed_dict L h' →
  ∀ x, reachable h feed_dict x → x ∈ L.
Proof.
  intros Hac Hpost.
  assert (∀ k x, reachable h feed_dict x →
            length h - height h (S (length h)) x = k → x ∈ L) as Hind.
  { intros k. induction (lt_wf k) as [k _ IH]. intros x Hx Hk.
    apply (sp_avail _ _ _ _ Hpost); [done|]. intros p Hp Hxp.
    pose proof (acyclic_rank Hac p x Hp Hxp) as Hlt.
    pose proof (height_bound p Hac Hp) as Hbp.
    apply (IH (length h - height h (S (length h)) p)); [lia|done|done]. }
  intros x Hx. by eapply Hind.
Qed.

End Rank.

(** ** [topological_sort] on a heap made by the constructors *)

Lemma NoDup_occ (l : list nat) : NoDup l ↔ ∀ x, occ x l ≤ 1.
Proof.
  induction l as [|y l IH].
  - split; [intros _ x; unfold occ; simpl; lia | intros _; apply NoDup_nil_2].
  - rewrite NoDup_cons, IH. split.
    + intros [Hy Hl] x. rewrite occ_cons. case_decide; [subst|by apply Hl].
      destruct (occ x l) as [|k] eqn:E; [lia|].
      destruct Hy. apply elem_of_occ. lia.
    + intros Hocc. split.
      * intros Hy%elem_of_occ. specialize (Hocc y).
        rewrite occ_cons, decide_True in Hocc by done. lia.
      * intros x. specialize (Hocc x). rewrite occ_cons in Hocc. lia.
Qed.

Section Built.

Variables (h : list (node V)) (feed_dict : gmap nat (option V)).

Hypothesis Hlinked : linked h.
Hypothesis Hfeeds : feeds_inputs h feed_dict.

Lemma linked_simple x :
  (∀ m, reachable h feed_dict m → NoDup (preds h m)) →
  reachable h feed_dict x → NoDup (succs h x).
Proof.
  intros Hnd Hx. apply NoDup_occ. intros m.
  destruct (decide (m ∈ succs h x)) as [Hm|Hm].
  - rewrite (linked_mirror _ Hlinked). apply NoDup_occ, Hnd.
    by eapply reach_succ.
  - destruct (occ m (succs h x)) eqn:E; [lia|].
    destruct Hm. apply elem_of_occ. lia.
Qed.

Lemma linked_duplicate x m :
  reachable h feed_dict x → 2 ≤ occ x (preds h m) → ¬ NoDup (succs h x).
Proof.
  intros Hx Hocc Hnd. rewrite <- (linked_mirror _ Hlinked) in Hocc.
  pose proof (proj1 (NoDup_occ _) Hnd m). lia.
Qed.

Lemma sort_spec fuel oracle :
  match topological_sort fuel oracle feed_dict h with
  | Ok (L, h') => sorted_post h feed_dict L h'
  | Raise e =>
      e = KeyError ∧ ∃ x, reachable h feed_dict x ∧ ¬ NoDup (succs h x)
  | OutOfFuel => True
  end.
Proof.
  apply topological_sort_spec.
  - by apply linked_valid.
  - intros x. by apply linked_fed.
  - intros k p Hk _. by eapply linked_sources.
Qed.

Lemma sort_enough_fuel :
  acyclic h feed_dict →
  ∃ fuel0, ∀ fuel oracle, fuel0 ≤ fuel →
    topological_sort fuel oracle feed_dict h ≠ OutOfFuel.
Proof.
  intros Hac.
  pose proof (linked_valid _ _ Hlinked Hfeeds) as Hv.
  set (c := λ y, walks h (height h (S (length h)) y) y).
  assert (∀ x, reachable h feed_dict x → S (sum_list (c <$> succs h x)) ≤ c x) as Hc.
  { intros x Hx. by apply (walks_cost h feed_dict). }
  set (f1 := sum_list (c <$> (map_to_list feed_dict).*1)).
  pose proof (discover_spec h feed_dict f1 ∅ _ ∅ Hv
    (discover_inv_init h feed_dict)) as Hd.
  pose proof (discover_fuel h feed_dict c f1 (map_to_list feed_dict).*1 ∅
    Hv Hc) as Hdf.
  destruct (discover f1 h (map_to_list feed_dict).*1 ∅) as [G|e|]; [|done|].
  - exists (f1 `max` size (dom G)). intros fuel oracle Hfuel.
    assert (∀ x, reachable h feed_dict x →
              kind_of h x = Some KInput → x ∈ dom feed_dict) as Hfed.
    { intros x. by apply linked_fed. }
    assert (∀ k p, k ∈ dom feed_dict →
              reachable h feed_dict p → k ∉ succs h p) as Hsrc.
    { intros k p Hk _. by eapply linked_sources. }
    apply (topological_sort_fuel h feed_dict Hv Hfed Hsrc c (dom G) fuel oracle
             Hc (go_dom _ _ _ Hd)); [fold f1; lia | lia].
  - exfalso. apply Hdf; [|done|done].
    intros x Hx%elem_of_keys. by apply reach_fed.
Qed.

(** Acyclic, no predecessor listed twice: [topological_sort] returns. *)
Lemma sort_returns :
  acyclic h feed_dict →
  (∀ m, reachable h feed_dict m → NoDup (preds h m)) →
  ∃ fuel0, ∀ fuel oracle, fuel0 ≤ fuel →
    ∃ L h', topological_sort fuel oracle feed_dict h = Ok (L, h').
Proof.
  intros Hac Hnd. destruct (sort_enough_fuel Hac) as [fuel0 Hfuel].
  exists fuel0. intros fuel oracle Hle.
  specialize (Hfuel fuel oracle Hle). pose proof (sort_spec fuel oracle) as Hs.
  destruct (topological_sort fuel oracle feed_dict h) as [[L h']|e|];
    [by eauto| |done].
  destruct Hs as (_ & x & Hx & Hdup). destruct Hdup. by apply linked_simple.
Qed.

End Built.

(** ** The constructors *)

(** The loop of [Node.__init__]: every node gets one more copy of [self]
    in its successor list for each of its occurrences in [inbound]. *)
Lemma link_inbound_spec self inbound :
  ∀ h,
  match link_inbound self inbound h with
  | Ok h' =>
      (∀ p, p ∈ inbound → p < length h)
      ∧ ∀ x, h' !! x =
          (λ nd, mk_node (nkind nd) (inbound_nodes nd)
                   (outbound_nodes nd ++ replicate (occ x inbound) self)
                   (value nd)) <$> h !! x
  | Raise e => e = BadRef ∧ ∃ p, p ∈ inbound ∧ length h ≤ p
  | OutOfFuel => False
  end.
Proof.
  induction inbound as [|n rest IH]; intros h; simpl.
  - split; [set_solver|]. intros x. destruct (h !! x) as [[]|]; simpl; [|done].
    by rewrite app_nil_r.
  - unfold deref. destruct (h !! n) as [nd|] eqn:Hn; simpl.
    + specialize (IH (alter (push_outbound self) n h)).
      destruct (link_inbound self rest (alter (push_outbound self) n h))
        as [h'|e|]; [| |done].
      * destruct IH as [Hb Hx]. rewrite length_alter in Hb. split.
        -- intros p [->|Hp]%elem_of_cons; [by eapply lookup_lt_Some | auto].
        -- intros x. rewrite Hx, occ_cons, list_lookup_alter.
           case_decide as E; [subst x|done].
           destruct (h !! n) as [[]|]; simpl; [|done].
           by rewrite <- app_assoc.
      * destruct IH as (-> & p & Hp & Hlen). rewrite length_alter in Hlen.
        split; [done|]. exists p. split; [by right | done].
    + split; [done|]. exists n. split; [by left | by apply lookup_ge_None].
Qed.

(** What the construction of a node does to the heap. *)
Lemma Node_init_spec k inbound h :
  match Node_init k inbound h with
  | Ok (self, h') =>
      self = length h ∧ length h' = S (length h)
      ∧ (∀ p, p ∈ inbound → p ≤ length h)
      ∧ (∀ x, succs h' x = succs h x ++ replicate (occ x inbound) self)
      ∧ (∀ x, preds h' x = if decide (x = self) then inbound else preds h x)
      ∧ (∀ x, kind_of h' x = if decide (x = self) then Some k else kind_of h x)
      ∧ (∀ x, slot h' x = slot h x)
  | Raise e => e = BadRef ∧ ∃ p, p ∈ inbound ∧ length h < p
  | OutOfFuel => False
  end.
Proof.
  unfold Node_init.
  pose proof (link_inbound_spec (length h) inbound
    (h ++ [mk_node k inbound [] None])) as Hl.
  destruct (link_inbound (length h) inbound (h ++ [mk_node k inbound [] None]))
    as [h'|e|]; simpl; [| |done].
  - destruct Hl as [Hb Hx]. rewrite length_app in Hb. simpl in Hb.
    assert (∀ x, h' !! x =
      if decide (x = length h)
      then Some (mk_node k inbound (replicate (occ x inbound) (length h)) None)
      else (λ nd, mk_node (nkind nd) (inbound_nodes nd)
                   (outbound_nodes nd ++ replicate (occ x inbound) (length h))
                   (value nd)) <$> h !! x) as Hx'.
    { intros x. rewrite Hx. case_decide as E.
      - subst x. by rewrite list_lookup_middle.
      - destruct (decide (x < length h)).
        + by rewrite lookup_app_l.
        + rewrite !lookup_ge_None_2; [done|lia|].
          rewrite length_app. simpl. lia. }
    assert (∀ x, length h < x → occ x inbound = 0) as Hbig.
    { intros x Hlt. destruct (occ x inbound) eqn:E; [done|].
      assert (x ∈ inbound) as Hin by (apply elem_of_occ; lia).
      apply Hb in Hin. lia. }
    split; [done|]. split.
    { apply Nat.le_antisymm.
      - destruct (decide (length h' ≤ S (length h))) as [|Hn]; [done|].
        destruct (lookup_lt_is_Some_2 h' (S (length h))) as [nd Hnd]; [lia|].
        rewrite Hx', decide_False, lookup_ge_None_2 in Hnd by lia. done.
      - apply lookup_lt_is_Some_1. rewrite Hx', decide_True by done. eauto. }
    split; [intros p Hp; specialize (Hb p Hp); lia|].
    split; [|split; [|split]]; intros x.
    + unfold succs. rewrite Hx'. case_decide as E.
      * subst x. by rewrite lookup_ge_None_2.
      * destruct (h !! x) as [[]|] eqn:E'; simpl; [done|].
        apply lookup_ge_None in E'. rewrite Hbig; [done | lia].
    + unfold preds. rewrite Hx'. case_decide; [done|].
      by destruct (h !! x) as [[]|].
    + unfold kind_of. rewrite Hx'. case_decide; [done|].
      by destruct (h !! x) as [[]|].
    + unfold slot. rewrite Hx'. case_decide as E.
      * subst x. by rewrite lookup_ge_None_2.
      * by destruct (h !! x) as [[]|].
  - destruct Hl as (-> & p & Hp & Hlen). rewrite length_app in Hlen.
    simpl in Hlen. split; [done|]. exists p. split; [done | lia].
Qed.

(** A node built from existing nodes keeps the heap linked. *)
Lemma Node_init_linked k inbound h :
  linked h →
  (∀ p, p ∈ inbound → p < length h) →
  (k = KInput → inbound = []) →
  ∃ h', Node_init k inbound h = Ok (length h, h') ∧ linked h'.
Proof.
  intros [Hs Hp Hm Hi] Hb Hk.
  pose proof (Node_init_spec k inbound h) as Hn.
  destruct (Node_init k inbound h) as [[self h']|e|]; [| |done].
  - destruct Hn as (-> & Hlen & _ & Hsu & Hpr & Hki & _).
    exists h'. split; [done|]. split.
    + intros n m. rewrite Hsu, Hlen. intros [Hin|Hin]%elem_of_app.
      * specialize (Hs n m Hin). lia.
      * apply elem_of_replicate in Hin as [-> _]. lia.
    + intros n m. rewrite Hpr, Hlen. case_decide; intros Hin.
      * specialize (Hb m Hin). lia.
      * specialize (Hp n m Hin). lia.
    + intros n m. rewrite Hsu, Hpr, occ_app, occ_replicate.
      case_decide as E1; case_decide as E2; try congruence.
      * subst m. destruct (occ (length h) (succs h n)) eqn:E; [done|].
        assert (length h ∈ succs h n) as Hin by (apply elem_of_occ; lia).
        specialize (Hs n _ Hin). lia.
      * rewrite Hm. lia.
    + intros n. rewrite Hki, Hpr. case_decide; [|by auto].
      intros [= ->]. by apply Hk.
  - destruct Hn as (_ & p & Hin & Hlt). specialize (Hb p Hin). lia.
Qed.

Lemma linked_nil : linked (@nil (node V)).
Proof.
  split; unfold succs, preds, kind_of; intros n; try intros m;
    rewrite ?lookup_nil; simpl; try done; by intros ?%elem_of_nil.
Qed.

(** ** The forward pass *)

Lemma set_value_id n nd h : h !! n = Some nd → set_value n (value nd) h = h.
Proof.
  intros Hn. apply list_eq. intros x. rewrite set_value_lookup.
  case_decide; [subst x|done]. rewrite Hn. by destruct nd.
Qed.

(** Two heaps with the same links and the same value slots are equal. *)
Lemma heap_ext h h' :
  same_links h h' → (∀ x, slot h x = slot h' x) → h = h'.
Proof.
  intros Hl Hs. apply list_eq. intros x.
  pose proof (same_links_lookup h h' x Hl) as Hx. specialize (Hs x).
  unfold slot in Hs.
  destruct (h !! x) as [[]|], (h' !! x) as [[]|]; simplify_eq/=; done.
Qed.

Ltac step_bind :=
  match goal with
  | |- context [?c ≫= _] => destruct c eqn:?; simpl; try done
  end.

(** [forward] computes a value and stores it. *)
Lemma forward_node_value n h :
  forward n h = v ← node_value h n; Ok (set_value n v h).
Proof.
  unfold forward, node_value.
  destruct (deref h n) as [self| |] eqn:E; simpl; [|done|done].
  destruct (nkind self); simpl.
  - done.
  - apply deref_Ok in E. by rewrite set_value_id.
  - unfold Add_forward. rewrite E. simpl. repeat step_bind.
  - unfold Linear_forward. rewrite E. simpl. repeat step_bind.
  - unfold Sigmoid_forward. rewrite E. simpl. repeat step_bind.
Qed.

Lemma inbound_value_ext h1 h2 nd1 nd2 i :
  same_links h1 h2 → inbound_nodes nd1 = inbound_nodes nd2 →
  (∀ p, p ∈ inbound_nodes nd1 → slot h1 p = slot h2 p) →
  inbound_value h1 nd1 i = inbound_value h2 nd2 i.
Proof.
  intros Hl Hin Hs. unfold inbound_value. rewrite <- Hin.
  destruct (inbound_nodes nd1 !! i) as [p|] eqn:Hp; [|done].
  specialize (Hs p (list_elem_of_lookup_2 _ _ _ Hp)).
  pose proof (same_links_lookup h1 h2 p Hl) as Hx.
  unfold slot in Hs. unfold deref.
  destruct (h1 !! p) as [[]|], (h2 !! p) as [[]|]; simplify_eq/=; done.
Qed.

(** The value a node computes depends on the slots of its predecessors
    only (on its own slot for an [Input]). *)
Lemma node_value_ext h1 h2 n :
  same_links h1 h2 →
  (∀ p, p ∈ preds h1 n → slot h1 p = slot h2 p) →
  (kind_of h1 n = Some KInput → slot h1 n = slot h2 n) →
  node_value h1 n = node_value h2 n.
Proof.
  intros Hl Hp Hi. unfold node_value.
  pose proof (same_links_lookup h1 h2 n Hl) as Hx.
  unfold preds in Hp. unfold kind_of, slot in Hi. unfold deref.
  destruct (h1 !! n) as [nd1|] eqn:E1, (h2 !! n) as [nd2|] eqn:E2;
    simpl in *; try done.
  injection Hx as Hk Hin Hout.
  assert (∀ i, inbound_value h1 nd1 i = inbound_value h2 nd2 i) as Hv.
  { intros i. by apply inbound_value_ext. }
  rewrite <- Hk. destruct (nkind nd1); simpl; rewrite ?Hv; try done.
  f_equal. by apply Hi.
Qed.

Lemma node_value_Ok_lt h n v : node_value h n = Ok v → n < length h.
Proof.
  unfold node_value. intros E. apply bind_Ok in E as (self & Hs%deref_Ok & _).
  by eapply lookup_lt_Some.
Qed.

Section Pass.

(** [h0] fixes the links; [L] is an order in which the predecessors of a
    node that are in [L] come before the node. *)
Variables (h0 : list (node V)) (L : list nat).

Hypothesis HndL : NoDup L.

Hypothesis Hord : ∀ done m rest, L = done ++ m :: rest →
  ∀ p, p ∈ preds h0 m → p ∈ L → p ∈ done.

Lemma pass_not_own_pred done n rest :
  L = done ++ n :: rest → (n ∉ done) ∧ (n ∉ rest) ∧ (n ∉ preds h0 n).
Proof.
  intros HL. pose proof HndL as Hnd. rewrite HL in Hnd.
  apply NoDup_app in Hnd as (_ & Hdisj & [Hn _]%NoDup_cons).
  assert (n ∉ done) as Hnd'.
  { intros Hin. apply (Hdisj n Hin). by left. }
  split; [done|]. split; [done|].
  intros Hp. apply Hnd'. apply (Hord done n rest HL n Hp).
  rewrite HL. apply elem_of_app. right. by left.
Qed.

Lemma pass_earlier_pred done n rest x :
  L = done ++ n :: rest → x ∈ done → n ∉ preds h0 x.
Proof.
  intros HL Hx Hp.
  destruct (pass_not_own_pred done n rest HL) as (Hnd' & _).
  apply list_elem_of_split in Hx as (d1 & d2 & ->).
  assert (n ∈ d1) as Hn.
  { apply (Hord d1 x (d2 ++ n :: rest)); [by rewrite HL, <- app_assoc | done |].
    rewrite HL. apply elem_of_app. right. by left. }
  apply Hnd'. apply elem_of_app. by left.
Qed.

(** What a pass over [rest] establishes, started in [hc] after [done]. *)
Lemma pass_char rest :
  ∀ done hc hA,
  L = done ++ rest → same_links h0 hc →
  (∀ x, x ∈ done → node_value hc x = Ok (slot hc x)) →
  forward_all rest hc = Ok hA →
  same_links h0 hA
  ∧ (∀ x, x ∉ rest → slot hA x = slot hc x)
  ∧ (∀ x, x ∈ L → node_value hA x = Ok (slot hA x))
  ∧ (∀ x, x ∈ rest → kind_of h0 x = Some KInput → slot hA x = slot hc x).
Proof.
  induction rest as [|n rest IH]; intros done hc hA HL Hl Hdone E; simpl in E.
  { injection E as <-. rewrite app_nil_r in HL. subst L.
    split; [done|]. split; [done|]. split; [done|].
    by intros x ?%elem_of_nil. }
  apply bind_Ok in E as (hc' & E1 & E).
  rewrite forward_node_value in E1.
  apply bind_Ok in E1 as (v & Hv & [= <-]).
  pose proof (node_value_Ok_lt _ _ _ Hv) as Hlt.
  destruct (pass_not_own_pred done n rest HL) as (Hnd' & Hnr & Hnp).
  set (hc' := set_value n v hc) in *.
  assert (same_links hc hc') as Hl' by apply set_value_same_links.
  assert (∀ x, slot hc' x = if decide (x = n) then v else slot hc x) as Hslot.
  { intros x. unfold hc'. rewrite set_value_slot.
    destruct (decide (x = n)) as [->|Hx].
    - by rewrite decide_True.
    - rewrite decide_False; [done|]. intros [? _]. congruence. }
  assert (kind_of hc n = Some KInput → v = slot hc n) as Hinput.
  { intros Hk. unfold node_value in Hv. unfold kind_of in Hk. unfold slot.
    destruct (hc !! n) as [nd|] eqn:En; [|done].
    simpl in Hk. injection Hk as Hk.
    assert (deref hc n = Ok nd) as Hd by by apply deref_Ok.
    rewrite Hd in Hv. simpl in Hv. rewrite Hk in Hv. by injection Hv. }
  assert (node_value hc' n = Ok (slot hc' n)) as Hn.
  { rewrite (Hslot n), decide_True by done. rewrite <- Hv. symmetry.
    apply node_value_ext; [done| |].
    - intros p Hp. rewrite Hslot, decide_False; [done|].
      intros ->. apply Hnp. by rewrite <- (same_links_preds h0 hc n Hl).
    - intros Hk. rewrite Hslot, decide_True by done. symmetry. by apply Hinput. }
  destruct (IH (done ++ [n]) hc' hA) as (HlA & Hout & Hall & Hin).
  - by rewrite <- app_assoc.
  - by eapply same_links_trans.
  - intros x [Hx| ->%list_elem_of_singleton]%elem_of_app; [|done].
    assert (x ≠ n) as Hxn by (intros ->; done).
    rewrite Hslot, decide_False by done. rewrite <- (Hdone x Hx). symmetry.
    apply node_value_ext; [done| |].
    + intros p Hp. rewrite Hslot, decide_False; [done|].
      intros ->. apply (pass_earlier_pred done n rest x HL Hx).
      by rewrite <- (same_links_preds h0 hc x Hl).
    + intros _. by rewrite Hslot, decide_False.
  - done.
  - split; [done|]. split; [|split; [done|]].
    + intros x Hx. rewrite Hout, Hslot.
      * rewrite decide_False; [done|]. intros ->. apply Hx. by left.
      * intros Hxr. apply Hx. by right.
    + intros x [->|Hx]%elem_of_cons Hk.
      * rewrite Hout by done. rewrite Hslot, decide_True by done.
        apply Hinput. by rewrite (same_links_kind h0 hc n Hl).
      * rewrite Hin by done. rewrite Hslot, decide_False; [done|].
        intros ->. done.
Qed.

(** A heap [hA] in which every node of [L] holds the value it computes is
    what a pass over [L] produces from any heap that agrees with [hA]
    where the pass does not write. *)
Lemma pass_replay hA rest :
  same_links h0 hA →
  (∀ x, x ∈ L → node_value hA x = Ok (slot hA x)) →
  ∀ done hc,
  L = done ++ rest → same_links hA hc →
  (∀ x, x ∈ done → slot hc x = slot hA x) →
  (∀ x, x ∉ L → slot hc x = slot hA x) →
  (∀ x, x ∈ L → kind_of h0 x = Some KInput → slot hc x = slot hA x) →
  forward_all rest hc = Ok hA.
Proof.
  intros HlA HA.
  induction rest as [|n rest IH]; intros done hc HL Hl Hdone Hout Hin; simpl.
  { rewrite app_nil_r in HL. f_equal. symmetry. apply heap_ext; [done|].
    intros x. symmetry. destruct (decide (x ∈ L)) as [Hx|Hx]; [|by apply Hout].
    apply Hdone. by rewrite <- HL. }
  assert (n ∈ L) as HnL.
  { rewrite HL. apply elem_of_app. right. by left. }
  destruct (pass_not_own_pred done n rest HL) as (Hnd' & Hnr & Hnp).
  assert (node_value hc n = Ok (slot hA n)) as Hv.
  { rewrite <- (HA n HnL). symmetry. apply node_value_ext; [done| |].
    - intros p Hp. symmetry. destruct (decide (p ∈ L)) as [HpL|HpL].
      + apply Hdone. apply (Hord done n rest HL); [|done].
        by rewrite <- (same_links_preds h0 hA n HlA).
      + by apply Hout.
    - intros Hk. symmetry. apply Hin; [done|].
      by rewrite <- (same_links_kind h0 hA n HlA). }
  rewrite forward_node_value, Hv. simpl.
  pose proof (node_value_Ok_lt _ _ _ Hv) as Hlt.
  assert (∀ x, slot (set_value n (slot hA n) hc) x
               = if decide (x = n) then slot hA n else slot hc x) as Hslot.
  { intros x. rewrite set_value_slot.
    destruct (decide (x = n)) as [->|Hx].
    - by rewrite decide_True.
    - rewrite decide_False; [done|]. intros [? _]. congruence. }
  apply (IH (done ++ [n])).
  - by rewrite <- app_assoc.
  - eapply same_links_trans; [exact Hl | apply set_value_same_links].
  - intros x [Hx| ->%list_elem_of_singleton]%elem_of_app; rewrite Hslot.
    + rewrite decide_False; [by apply Hdone|]. intros ->. done.
    + by rewrite decide_True.
  - intros x Hx. rewrite Hslot, decide_False; [by apply Hout|].
    intros ->. done.
  - intros x Hx Hk. rewrite Hslot. case_decide; [by subst|]. by apply Hin.
Qed.

End Pass.

(** ** What [topological_sort] does to the heap, whatever the heap *)

Lemma emit_Ok feed_dict n hc G ready L hc' G' ready' L' :
  emit feed_dict n hc G ready L = Ok (hc', G', ready', L') →
  L' = L ++ [n]
  ∧ hc' = (if decide (kind_of hc n = Some KInput)
           then set_value n (fed feed_dict n) hc else hc)
  ∧ (kind_of hc n = Some KInput → n ∈ dom feed_dict).
Proof.
  unfold emit. intros E.
  apply bind_Ok in E as (self & Hself%deref_Ok & E).
  apply bind_Ok in E as (h1 & E1 & E).
  apply bind_Ok in E as ([G1 r1] & _ & E).
  injection E as <- <- <- <-. split; [done|].
  unfold kind_of. rewrite Hself. simpl.
  destruct (decide (nkind self = KInput)) as [Hk|Hk].
  - rewrite decide_True by by rewrite Hk.
    destruct (feed_dict !! n) as [v|] eqn:Hv; [|done].
    injection E1 as <-. unfold fed. rewrite Hv. split; [done|].
    intros _. by apply elem_of_dom_2 in Hv.
  - rewrite decide_False by congruence.
    injection E1 as <-. split; [done | congruence].
Qed.

Lemma drain_same_links fuel oracle feed_dict :
  ∀ i hc G ready L L' h',
  drain fuel oracle i feed_dict hc G ready L = Ok (L', h') → same_links hc h'.
Proof.
  induction fuel as [|fuel IH]; intros i hc G ready L L' h'; simpl.
  - destruct (set_pop (oracle i) ready) as [[n r]|]; [done|].
    intros [= _ <-]. apply same_links_refl.
  - destruct (set_pop (oracle i) ready) as [[n r]|];
      [|intros [= _ <-]; apply same_links_refl].
    intros E. apply bind_Ok in E as ([[[hc1 G1] r1] L1] & E1 & E).
    apply emit_Ok in E1 as (_ & -> & _).
    apply IH in E. eapply same_links_trans; [|exact E].
    case_decide; [apply set_value_same_links | apply same_links_refl].
Qed.

Lemma topological_sort_same_links fuel oracle feed_dict h L h' :
  topological_sort fuel oracle feed_dict h = Ok (L, h') → same_links h h'.
Proof.
  unfold topological_sort. intros E.
  apply bind_Ok in E as (G & _ & E). by eapply drain_same_links.
Qed.

(** ** Reachability *)

Lemma reachable_from_key h feed_dict x :
  reachable h feed_dict x → ∃ k, k ∈ dom feed_dict ∧ rtc (edge h) k x.
Proof.
  induction 1 as [k Hk|n m _ (k & Hk & Hkn) Hm].
  - by exists k.
  - exists k. split; [done|]. eapply rtc_r; [exact Hkn | exact Hm].
Qed.

Lemma tc_edge_lt h n m :
  (∀ a b, b ∈ succs h a → a < b) → tc (edge h) n m → n < m.
Proof.
  intros Hup. induction 1 as [a b Hab|a b c Hab _ IH].
  - by apply Hup.
  - apply Hup in Hab. lia.
Qed.

(** Links that go from older to newer objects make no cycle. *)
Lemma ordered_acyclic h feed_dict :
  (∀ a b, b ∈ succs h a → a < b) → acyclic h feed_dict.
Proof.
  intros Hup n _ Hnn. apply (tc_edge_lt h n n Hup) in Hnn. lia.
Qed.

Lemma same_links_reachable h h' feed_dict x :
  same_links h h' → reachable h feed_dict x → reachable h' feed_dict x.
Proof.
  intros Hl. induction 1 as [k Hk|n m _ IH Hm].
  - by apply reach_fed.
  - apply reach_succ with n; [done|]. by rewrite (same_links_succs h h' n Hl).
Qed.

Lemma same_links_reachable_iff h h' feed_dict x :
  same_links h h' → reachable h' feed_dict x ↔ reachable h feed_dict x.
Proof.
  intros Hl. split; apply same_links_reachable; [|done].
  unfold same_links in *. done.
Qed.

Lemma same_links_linked h h' : same_links h h' → linked h → linked h'.
Proof.
  intros Hl [Hs Hp Hm Hi]. split.
  - intros n m. rewrite (same_links_succs h h' n Hl),
      <- (same_links_length h h' Hl). apply Hs.
  - intros n m. rewrite (same_links_preds h h' n Hl),
      <- (same_links_length h h' Hl). apply Hp.
  - intros n m. rewrite (same_links_succs h h' n Hl),
      (same_links_preds h h' m Hl). apply Hm.
  - intros n. rewrite (same_links_kind h h' n Hl),
      (same_links_preds h h' n Hl). apply Hi.
Qed.

Lemma same_links_feeds h h' feed_dict :
  same_links h h' → feeds_inputs h feed_dict → feeds_inputs h' feed_dict.
Proof.
  intros Hl Hf n Hn. rewrite (same_links_kind h h' n Hl). by apply Hf.
Qed.

Lemma same_links_tc h h' n m :
  same_links h h' → tc (edge h') n m → tc (edge h) n m.
Proof.
  intros Hl. induction 1 as [a b Hab|a b c Hab _ IH].
  - apply tc_once. unfold edge in *. by rewrite <- (same_links_succs h h' a Hl).
  - eapply tc_l; [|exact IH].
    unfold edge in *. by rewrite <- (same_links_succs h h' a Hl).
Qed.

Lemma same_links_acyclic h h' feed_dict :
  same_links h h' → acyclic h feed_dict → acyclic h' feed_dict.
Proof.
  intros Hl Hac n Hn Hnn. apply (Hac n).
  - by apply (same_links_reachable_iff h h' feed_dict n Hl).
  - by apply (same_links_tc h h').
Qed.

(** In the output of [topological_sort] the predecessors of a node that
    are in the output stand before it. *)
Lemma sorted_post_preds h feed_dict L g :
  linked h → sorted_post h feed_dict L g →
  ∀ done m rest, L = done ++ m :: rest →
  ∀ p, p ∈ preds h m → p ∈ L → p ∈ done.
Proof.
  intros Hl Hs done m rest HL p Hp HpL.
  destruct (sp_done _ _ _ _ Hs p HpL) as [Hrp _].
  assert (m ∈ succs h p) as Hm.
  { apply elem_of_occ. rewrite (linked_mirror _ Hl). by apply elem_of_occ. }
  assert (L !! length done = Some m) as Hj.
  { rewrite HL. by rewrite list_lookup_middle. }
  destruct (sp_order _ _ _ _ Hs _ m p Hj Hrp Hm) as (i & Hi & Hip).
  rewrite HL, lookup_app_l in Hip by done.
  by eapply list_elem_of_lookup_2.
Qed.

(** Sorting and evaluating again, from the same heap or from one that
    differs in the slots of reachable nodes only, gives the same result
    whatever the two oracles choose. *)
Lemma rerun h h2 feed_dict f1 o1 L1 g1 out r f2 o2 L2 g2 :
  linked h → feeds_inputs h feed_dict → acyclic h feed_dict →
  same_links h h2 →
  (∀ x, ¬ reachable h feed_dict x → slot h2 x = slot h x) →
  topological_sort f1 o1 feed_dict h = Ok (L1, g1) →
  forward_pass out L1 g1 = Ok r →
  topological_sort f2 o2 feed_dict h2 = Ok (L2, g2) →
  forward_pass out L2 g2 = Ok r.
Proof.
  intros Hl Hf Hac Hl2 Hun E1 P1 E2.
  pose proof (sort_spec h feed_dict Hl Hf f1 o1) as S1. rewrite E1 in S1.
  pose proof (sort_spec h2 feed_dict (same_links_linked _ _ Hl2 Hl)
    (same_links_feeds _ _ _ Hl2 Hf) f2 o2) as S2. rewrite E2 in S2.
  assert (∀ x, x ∈ L1 ↔ reachable h feed_dict x) as HL1.
  { intros x. split; [by apply (sp_done _ _ _ _ S1) | by eapply sorted_complete]. }
  assert (∀ x, x ∈ L2 ↔ reachable h feed_dict x) as HL2.
  { intros x. rewrite <- (same_links_reachable_iff h h2 feed_dict x Hl2).
    split; [by apply (sp_done _ _ _ _ S2)|].
    eapply sorted_complete; [|exact S2]. by eapply same_links_acyclic. }
  unfold forward_pass in *.
  apply bind_Ok in P1 as (hA & PA & P1).
  destruct (pass_char h L1 (sp_nodup _ _ _ _ S1)
              (sorted_post_preds h feed_dict L1 g1 Hl S1) L1 [] g1 hA eq_refl
              (sp_links _ _ _ _ S1)) as (HlA & Hout & Hall & Hin); [|done|].
  { by intros x ?%elem_of_nil. }
  assert (forward_all L2 g2 = Ok hA) as ->; [|done].
  assert (∀ done m rest, L2 = done ++ m :: rest →
            ∀ p, p ∈ preds h m → p ∈ L2 → p ∈ done) as Hord2.
  { intros done m rest HL p Hp. rewrite <- (same_links_preds h h2 m Hl2) in Hp.
    revert p Hp. eapply sorted_post_preds; [|exact S2|exact HL].
    by eapply same_links_linked. }
  apply (pass_replay h L2 (sp_nodup _ _ _ _ S2) Hord2 hA L2 HlA) with (done := []).
  - intros x Hx. apply Hall. apply HL1. by apply HL2.
  - done.
  - eapply same_links_trans; [|apply (sp_links _ _ _ _ S2)].
    eapply same_links_trans; [|exact Hl2]. unfold same_links in *. done.
  - by intros x ?%elem_of_nil.
  - intros x Hx.
    assert (¬ reachable h feed_dict x) as Hnr by (by rewrite <- HL2).
    assert (x ∉ L1) as Hx1 by (by rewrite HL1).
    rewrite (Hout x Hx1).
    rewrite (sp_slot _ _ _ _ S2), (sp_slot _ _ _ _ S1).
    rewrite !decide_False; [by apply Hun | tauto | tauto].
  - intros x Hx Hk.
    assert (x ∈ L1) as Hx1 by (apply HL1; by apply HL2).
    rewrite (Hin x Hx1 Hk).
    rewrite (sp_slot _ _ _ _ S2), (sp_slot _ _ _ _ S1).
    rewrite !decide_True; [done | done |].
    split; [done|]. by rewrite (same_links_kind h h2 x Hl2).
Qed.

Lemma forward_all_slot_outside L :
  ∀ g hA, forward_all L g = Ok hA → ∀ x, x ∉ L → slot hA x = slot g x.
Proof.
  induction L as [|n L IH]; intros g hA E x Hx; simpl in E.
  - by injection E as <-.
  - apply bind_Ok in E as (g' & E1 & E).
    rewrite forward_node_value in E1.
    apply bind_Ok in E1 as (v & _ & [= <-]).
    rewrite (IH _ _ E x); [|intros ?; apply Hx; by right].
    rewrite set_value_slot, decide_False; [done|].
    intros [-> _]. apply Hx. by left.
Qed.

End Facts.

(** * The examples *)

Lemma example_heap_eq : example_heap = Ok example_h.
Proof. reflexivity. Qed.

Lemma twice_h_eq :
  ('(a, h) ← Input_new []; '(f, h) ← Add_new a a h; Ok h) = Ok twice_h.
Proof. reflexivity. Qed.

Lemma example_linked : linked example_h.
Proof.
  destruct (Node_init_linked (V:=Z) KInput [] [] linked_nil) as (h1 & E1 & L1);
    [by intros p ?%elem_of_nil | done |].
  injection E1 as <-.
  destruct (Node_init_linked KInput [] _ L1) as (h2 & E2 & L2);
    [by intros p ?%elem_of_nil | done |].
  injection E2 as <-.
  destruct (Node_init_linked KAdd [0; 1] _ L2) as (h3 & E3 & L3);
    [|done|].
  { intros p Hp. simpl.
    apply elem_of_cons in Hp as [->|Hp]; [lia|].
    apply list_elem_of_singleton in Hp as ->. lia. }
  injection E3 as <-. exact L3.
Qed.

Lemma twice_linked : linked twice_h.
Proof.
  destruct (Node_init_linked (V:=Z) KInput [] [] linked_nil) as (h1 & E1 & L1);
    [by intros p ?%elem_of_nil | done |].
  injection E1 as <-.
  destruct (Node_init_linked KAdd [0; 0] _ L1) as (h2 & E2 & L2);
    [|done|].
  { intros p Hp. simpl.
    apply elem_of_cons in Hp as [->|Hp]; [lia|].
    apply list_elem_of_singleton in Hp as ->. lia. }
  injection E2 as <-. exact L2.
Qed.

Lemma example_feeds : feeds_inputs example_h example_feed.
Proof.
  intros n Hn. unfold example_feed in Hn.
  rewrite dom_insert_L, dom_singleton_L in Hn.
  apply elem_of_union in Hn as [->%elem_of_singleton | ->%elem_of_singleton];
    reflexivity.
Qed.

Lemma twice_feeds : feeds_inputs twice_h twice_feed.
Proof.
  intros n Hn. unfold twice_feed in Hn.
  rewrite dom_singleton_L in Hn. apply elem_of_singleton in Hn as ->.
  reflexivity.
Qed.

Lemma example_succs_up a b : b ∈ succs example_h a → a < b.
Proof.
  destruct a as [|[|[|a]]]; unfold succs; simpl.
  - intros ->%list_elem_of_singleton. lia.
  - intros ->%list_elem_of_singleton. lia.
  - by intros ?%elem_of_nil.
  - by intros ?%elem_of_nil.
Qed.

Lemma twice_succs_up a b : b ∈ succs twice_h a → a < b.
Proof.
  destruct a as [|[|a]]; unfold succs; simpl.
  - intros [-> | ->%list_elem_of_singleton]%elem_of_cons; lia.
  - by intros ?%elem_of_nil.
  - by intros ?%elem_of_nil.
Qed.

Lemma example_acyclic : acyclic example_h example_feed.
Proof. apply ordered_acyclic, example_succs_up. Qed.

Lemma twice_acyclic : acyclic twice_h twice_feed.
Proof. apply ordered_acyclic, twice_succs_up. Qed.

Lemma example_preds_nodup m :
  reachable example_h example_feed m → NoDup (preds example_h m).
Proof.
  intros _. destruct m as [|[|[|m]]]; unfold preds; simpl;
    try apply NoDup_nil_2.
  apply NoDup_cons. split; [|apply NoDup_singleton].
  intros ?%list_elem_of_singleton. done.
Qed.

Lemma example_reachable m : m < 3 → reachable example_h example_feed m.
Proof.
  intros Hm.
  assert (reachable example_h example_feed 0) as H0.
  { apply reach_fed. unfold example_feed.
    rewrite dom_insert_L. apply elem_of_union_l. by apply elem_of_singleton. }
  assert (reachable example_h example_feed 1) as H1.
  { apply reach_fed. unfold example_feed.
    rewrite dom_insert_L, dom_singleton_L.
    apply elem_of_union_r. by apply elem_of_singleton. }
  destruct m as [|[|[|m]]]; [done|done| |lia].
  apply reach_succ with 0; [done|]. unfold succs. simpl.
  by apply list_elem_of_singleton.
Qed.

(** * The sorter *)

(** C1.  On a heap made by the constructors whose graph reachable from the
    keys of the feed dictionary is acyclic, every list [topological_sort]
    returns is a topological order: along every edge [n -> m] of the
    reachable graph (equivalently, for every reachable predecessor [n] of
    [m]) the position of [n] is strictly smaller than the position of [m],
    and positions are unique.  With no predecessor listed twice the call
    does return, for any oracle, once the fuel suffices. *)
Theorem topological_sort_order {V : Type} (h : list (node V))
    (feed_dict : gmap nat (option V)) :
  linked h → feeds_inputs h feed_dict → acyclic h feed_dict →
  (∀ fuel oracle L h',
     topological_sort fuel oracle feed_dict h = Ok (L, h') →
     NoDup L
     ∧ (∀ n m, reachable h feed_dict n → m ∈ succs h n → before L n m)
     ∧ (∀ n m, reachable h feed_dict n → reachable h feed_dict m →
          n ∈ preds h m → before L n m))
  ∧ ((∀ m, reachable h feed_dict m → NoDup (preds h m)) →
     ∃ fuel0, ∀ fuel oracle, fuel0 ≤ fuel →
       ∃ L h', topological_sort fuel oracle feed_dict h = Ok (L, h')).
Proof.
  intros Hl Hf Hac. split; [|by apply sort_returns].
  intros fuel oracle L h' E.
  pose proof (sort_spec h feed_dict Hl Hf fuel oracle) as Hs.
  rewrite E in Hs.
  assert (∀ n m, reachable h feed_dict n → m ∈ succs h n → before L n m) as Hord.
  { intros n m Hn Hm.
    assert (m ∈ L) as HmL.
    { eapply sorted_complete; [done | done | by eapply reach_succ]. }
    apply list_elem_of_lookup in HmL as [j Hj].
    destruct (sp_order _ _ _ _ Hs j m n Hj Hn Hm) as (i & Hij & Hi).
    by exists i, j. }
  split; [apply (sp_nodup _ _ _ _ Hs)|]. split; [done|].
  intros n m Hn _ Hnm. apply Hord; [done|].
  apply elem_of_occ. rewrite (linked_mirror _ Hl). by apply elem_of_occ.
Qed.

Lemma topological_sort_order_witness :
  ∃ L h', topological_sort 4 (λ _, 0) example_feed example_h = Ok (L, h')
          ∧ before L 0 2 ∧ before L 1 2.
Proof.
  destruct (topological_sort_order example_h example_feed
              example_linked example_feeds example_acyclic) as [Hord _].
  exists [1; 0; 2], (set_value 0 (Some 5%Z) (set_value 1 (Some 10%Z) example_h)).
  assert (topological_sort 4 (λ _, 0) example_feed example_h
          = Ok ([1; 0; 2],
                set_value 0 (Some 5%Z) (set_value 1 (Some 10%Z) example_h))) as E
    by (vm_compute; reflexivity).
  split; [exact E|].
  destruct (Hord _ _ _ _ E) as (_ & Hedge & _).
  split; apply Hedge; try (apply example_reachable; lia);
    unfold succs; simpl; by apply list_elem_of_singleton.
Defined.

(** C2.  Under the same conditions the returned list holds exactly the
    nodes reachable from the keys of the feed dictionary by successor
    links, each of them once. *)
Theorem topological_sort_exact {V : Type} (h : list (node V))
    (feed_dict : gmap nat (option V)) :
  linked h → feeds_inputs h feed_dict → acyclic h feed_dict →
  (∀ fuel oracle L h',
     topological_sort fuel oracle feed_dict h = Ok (L, h') →
     NoDup L ∧ ∀ x, x ∈ L ↔ reachable h feed_dict x)
  ∧ ((∀ m, reachable h feed_dict m → NoDup (preds h m)) →
     ∃ fuel0, ∀ fuel oracle, fuel0 ≤ fuel →
       ∃ L h', topological_sort fuel oracle feed_dict h = Ok (L, h')).
Proof.
  intros Hl Hf Hac. split; [|by apply sort_returns].
  intros fuel oracle L h' E.
  pose proof (sort_spec h feed_dict Hl Hf fuel oracle) as Hs.
  rewrite E in Hs. split; [apply (sp_nodup _ _ _ _ Hs)|].
  intros x. split.
  - intros Hx. by apply (sp_done _ _ _ _ Hs).
  - by eapply sorted_complete.
Qed.

Lemma topological_sort_exact_witness :
  ∃ L h', topological_sort 4 (λ _, 1) example_feed example_h = Ok (L, h')
          ∧ NoDup L ∧ ∀ x, x ∈ L ↔ reachable example_h example_feed x.
Proof.
  destruct (topological_sort_exact example_h example_feed
              example_linked example_feeds example_acyclic) as [Hex _].
  exists [0; 1; 2], (set_value 1 (Some 10%Z) (set_value 0 (Some 5%Z) example_h)).
  assert (topological_sort 4 (λ _, 1) example_feed example_h
          = Ok ([0; 1; 2],
                set_value 1 (Some 10%Z) (set_value 0 (Some 5%Z) example_h))) as E
    by (vm_compute; reflexivity).
  split; [exact E|]. exact (Hex _ _ _ _ E).
Defined.

Lemma unfed_linked : linked unfed_h.
Proof.
  destruct (Node_init_linked (V:=Z) KInput [] [] linked_nil) as (h1 & E1 & L1);
    [by intros p ?%elem_of_nil | done |].
  injection E1 as <-.
  destruct (Node_init_linked KInput [] _ L1) as (h2 & E2 & L2);
    [by intros p ?%elem_of_nil | done |].
  injection E2 as <-.
  destruct (Node_init_linked KLinear [0; 1; 1] _ L2) as (h3 & E3 & L3);
    [|done|].
  { intros p Hp. simpl.
    repeat (apply elem_of_cons in Hp as [->|Hp]; [lia|]).
    by apply elem_of_nil in Hp. }
  injection E3 as <-. exact L3.
Qed.

Lemma unfed_feeds : feeds_inputs unfed_h unfed_feed.
Proof.
  intros n Hn. unfold unfed_feed in Hn.
  rewrite dom_singleton_L in Hn. apply elem_of_singleton in Hn as ->.
  reflexivity.
Qed.

Lemma unfed_reachable x : reachable unfed_h unfed_feed x → x = 0 ∨ x = 2.
Proof.
  induction 1 as [k Hk|n m _ IH Hm].
  - unfold unfed_feed in Hk. rewrite dom_singleton_L in Hk.
    left. by apply elem_of_singleton in Hk.
  - right. destruct IH as [-> | ->]; unfold succs in Hm; simpl in Hm.
    + by apply list_elem_of_singleton in Hm.
    + by apply elem_of_nil in Hm.
Qed.

(** C10 as stated fails: [l = Linear(a, b, b)] lists [b] twice, and [b]
    holds two back-references to [l]; with only [a] fed, [b] is never
    taken from the ready set, no removal fails and the list [[a, l]] is
    returned. *)
Lemma topological_sort_unreached_duplicate :
  Linear_new 0 1 1 [mk_node KInput [] [] (@None Z); mk_node KInput [] [] None]
    = Ok (2, unfed_h)
  ∧ occ 1 (preds unfed_h 2) = 2
  ∧ occ 2 (succs unfed_h 1) = 2
  ∧ topological_sort 2 (λ _, 0) unfed_feed unfed_h
    = Ok ([0; 2], set_value 0 (Some 1%Z) unfed_h)
  ∧ ∀ fuel oracle e, topological_sort fuel oracle unfed_feed unfed_h ≠ Raise e.
Proof.
  split; [reflexivity|]. split; [reflexivity|]. split; [reflexivity|].
  split; [vm_compute; reflexivity|].
  intros fuel oracle e E.
  pose proof (sort_spec unfed_h unfed_feed unfed_linked unfed_feeds
                fuel oracle) as Hs.
  rewrite E in Hs. destruct Hs as (_ & x & Hx & Hdup). apply Hdup.
  apply unfed_reachable in Hx as [-> | ->]; unfold succs; simpl.
  - apply NoDup_singleton.
  - apply NoDup_nil_2.
Qed.

(** C10, as the code has it.  When no reachable node lists a predecessor
    twice, no removal in the second loop fails: [topological_sort] raises
    nothing, whatever the fuel and the oracle.  When a node [p] that is
    reachable from the keys of the feed dictionary is listed twice among
    the predecessors of some node [m] (of an acyclic graph), the second
    removal of the edge fails: the call ends in [KeyError] for every
    oracle, and never returns a list. *)
Theorem topological_sort_removals {V : Type} (h : list (node V))
    (feed_dict : gmap nat (option V)) :
  linked h → feeds_inputs h feed_dict →
  ((∀ m, reachable h feed_dict m → NoDup (preds h m)) →
   ∀ fuel oracle e, topological_sort fuel oracle feed_dict h ≠ Raise e)
  ∧ (∀ p m, acyclic h feed_dict → reachable h feed_dict p →
       2 ≤ occ p (preds h m) →
       (∀ fuel oracle L h',
          topological_sort fuel oracle feed_dict h ≠ Ok (L, h'))
       ∧ ∃ fuel0, ∀ fuel oracle, fuel0 ≤ fuel →
           topological_sort fuel oracle feed_dict h = Raise KeyError).
Proof.
  intros Hl Hf. split.
  - intros Hnd fuel oracle e E.
    pose proof (sort_spec h feed_dict Hl Hf fuel oracle) as Hs.
    rewrite E in Hs. destruct Hs as (_ & x & Hx & Hdup).
    destruct Hdup. by apply (linked_simple h feed_dict Hl).
  - intros p m Hac Hp Hocc.
    assert (∀ fuel oracle L h',
              topological_sort fuel oracle feed_dict h ≠ Ok (L, h')) as Hno.
    { intros fuel oracle L h' E.
      pose proof (sort_spec h feed_dict Hl Hf fuel oracle) as Hs.
      rewrite E in Hs.
      pose proof (sorted_complete h feed_dict L h' Hac Hs p Hp) as HpL.
      apply (sp_done _ _ _ _ Hs) in HpL as [_ Hnd].
      by apply (linked_duplicate h feed_dict Hl p m). }
    split; [done|].
    destruct (sort_enough_fuel h feed_dict Hl Hf Hac) as [fuel0 Hfuel].
    exists fuel0. intros fuel oracle Hle.
    specialize (Hfuel fuel oracle Hle).
    pose proof (sort_spec h feed_dict Hl Hf fuel oracle) as Hs.
    destruct (topological_sort fuel oracle feed_dict h) as [[L h']|e|] eqn:E.
    + by destruct (Hno fuel oracle L h').
    + by destruct Hs as [-> _].
    + done.
Qed.

Lemma topological_sort_removals_witness :
  (∀ e, topological_sort 4 (λ _, 0) example_feed example_h ≠ Raise e)
  ∧ ∃ fuel0, ∀ fuel oracle, fuel0 ≤ fuel →
      topological_sort fuel oracle twice_feed twice_h = Raise KeyError.
Proof.
  split.
  - destruct (topological_sort_removals example_h example_feed
                example_linked example_feeds) as [Hsafe _].
    intros e. apply Hsafe. exact example_preds_nodup.
  - destruct (topological_sort_removals twice_h twice_feed
                twice_linked twice_feeds) as [_ Hdup].
    apply (Hdup 0 1 twice_acyclic).
    + apply reach_fed. unfold twice_feed. rewrite dom_singleton_L.
      by apply elem_of_singleton.
    + vm_compute. lia.
Defined.

Lemma sort_diverges {V : Type} (h : list (node V))
    (feed_dict : gmap nat (option V)) (x : nat) :
  valid h feed_dict → reachable h feed_dict x → tc (edge h) x x →
  ∀ fuel oracle, topological_sort fuel oracle feed_dict h = OutOfFuel.
Proof.
  intros Hv Hx Hcyc fuel oracle. unfold topological_sort.
  rewrite (discover_diverges h feed_dict fuel _ ∅ Hv); [done| |].
  - intros k Hk%elem_of_keys. by apply reach_fed.
  - destruct (reachable_from_key h feed_dict x Hx) as (k & Hk & Hkx).
    exists k. split; [by apply elem_of_keys|]. by exists x.
Qed.

(** C3, as the code has it.  When a cycle can be reached from the keys of
    the feed dictionary, [topological_sort] does not come back: its first
    loop uses up any fuel, so no error is signalled and no list, truncated
    or not, is returned. *)
Theorem topological_sort_cycle {V : Type} (h : list (node V))
    (feed_dict : gmap nat (option V)) (x : nat) :
  valid h feed_dict → reachable h feed_dict x → tc (edge h) x x →
  ∀ fuel oracle, topological_sort fuel oracle feed_dict h = OutOfFuel.
Proof. apply sort_diverges. Qed.

Lemma cyclic_valid : valid cyclic_h cyclic_feed.
Proof.
  assert (∀ x, reachable cyclic_h cyclic_feed x → x < 3) as Hb.
  { induction 1 as [k Hk|n m _ IH Hm].
    - unfold cyclic_feed in Hk. rewrite dom_singleton_L in Hk.
      apply elem_of_singleton in Hk as ->. lia.
    - destruct n as [|[|[|n]]]; unfold succs in Hm; simpl in Hm;
        try (apply list_elem_of_singleton in Hm as ->; lia).
      by apply elem_of_nil in Hm. }
  intros x Hx. apply lookup_lt_is_Some_2. simpl. by apply Hb.
Qed.

Lemma cyclic_reachable_1 : reachable cyclic_h cyclic_feed 1.
Proof.
  apply reach_succ with 0.
  - apply reach_fed. unfold cyclic_feed. rewrite dom_singleton_L.
    by apply elem_of_singleton.
  - unfold succs. simpl. by apply list_elem_of_singleton.
Qed.

Lemma cyclic_cycle_1 : tc (edge cyclic_h) 1 1.
Proof.
  apply tc_l with 2.
  - unfold edge, succs. simpl. by apply list_elem_of_singleton.
  - apply tc_once. unfold edge, succs. simpl. by apply list_elem_of_singleton.
Qed.

Lemma topological_sort_cycle_witness :
  topological_sort 1000 (λ _, 0) cyclic_feed cyclic_h = OutOfFuel.
Proof.
  exact (topological_sort_cycle cyclic_h cyclic_feed 1
           cyclic_valid cyclic_reachable_1 cyclic_cycle_1 1000 (λ _, 0)).
Defined.

(** C3 as stated fails: on the heap [cyclic_h], where the cycle
    [b -> c -> b] is reachable from the fed input, no fuel and no oracle
    make [topological_sort] signal an error. *)
Lemma topological_sort_cycle_no_error :
  reachable cyclic_h cyclic_feed 1 ∧ tc (edge cyclic_h) 1 1
  ∧ ¬ ∃ fuel oracle e,
        topological_sort fuel oracle cyclic_feed cyclic_h = Raise e.
Proof.
  split; [exact cyclic_reachable_1|]. split; [exact cyclic_cycle_1|].
  intros (fuel & oracle & e & E).
  rewrite (sort_diverges cyclic_h cyclic_feed 1
             cyclic_valid cyclic_reachable_1 cyclic_cycle_1) in E. done.
Qed.



(** * The nodes *)

Lemma Input_forward_same_links {V : Type} n (arg : option V) h h' :
  Input_forward n arg h = Ok h' → same_links h h'.
Proof.
  unfold Input_forward. destruct arg; intros [= <-];
    [apply set_value_same_links | apply same_links_refl].
Qed.

(** C4 as stated fails: constructing [Add(a, a)] appends two
    back-references to the new node to the successor list of [a]. *)
Lemma Node_init_listed_twice :
  ∃ h1 n h2,
    Input_new (V:=Z) [] = Ok (0, h1) ∧ Add_new 0 0 h1 = Ok (n, h2)
    ∧ occ n (succs h1 0) = 0 ∧ occ n (succs h2 0) = 2.
Proof.
  exists [mk_node KInput [] [] None], 1, twice_h.
  repeat split; reflexivity.
Qed.

(** C4, as the code has it.  Constructing a node [n] from the sequence
    [inbound] records the sequence as it is and appends to the successor
    list of every node [p] as many back-references to [n] as [p] has
    occurrences in [inbound]: exactly one when [p] is listed once, none
    when it is not listed.  The links are in place when the constructor
    returns, and no other operation changes a successor list. *)
Theorem Node_init_back_references {V : Type} {TM : TensorMath V}
    (k : kind) (inbound : list nat) (h : list (node V)) n h' :
  Node_init k inbound h = Ok (n, h') →
  n = length h
  ∧ preds h' n = inbound
  ∧ (∀ p, succs h' p = succs h p ++ replicate (occ p inbound) n)
  ∧ (∀ p, occ p inbound = 1 → succs h' p = succs h p ++ [n])
  ∧ (∀ p, p ∉ inbound → succs h' p = succs h p)
  ∧ (∀ (g : list (node V)) x w g',
       Input_forward x w g = Ok g' → ∀ p, succs g' p = succs g p)
  ∧ (∀ (g : list (node V)) x g',
       forward x g = Ok g' → ∀ p, succs g' p = succs g p)
  ∧ (∀ (g : list (node V)) out L v g',
       forward_pass out L g = Ok (v, g') → ∀ p, succs g' p = succs g p)
  ∧ (∀ (g : list (node V)) fuel oracle feed_dict L g',
       topological_sort fuel oracle feed_dict g = Ok (L, g') →
       ∀ p, succs g' p = succs g p).
Proof.
  intros E. pose proof (Node_init_spec k inbound h) as Hs. rewrite E in Hs.
  destruct Hs as (-> & _ & _ & Hsu & Hpr & _).
  split; [done|]. split; [by rewrite Hpr, decide_True|].
  split; [done|]. split; [|split].
  - intros p Hp. by rewrite Hsu, Hp.
  - intros p Hp. rewrite Hsu.
    destruct (occ p inbound) eqn:Ho; [by rewrite app_nil_r|].
    destruct Hp. apply elem_of_occ. lia.
  - split; [|split; [|split]].
    + intros g x w g' Hf p. by apply same_links_succs, (Input_forward_same_links x w).
    + intros g x g' Hf p. by apply same_links_succs, (forward_same_links x).
    + intros g out L v g' Hf p.
      by apply same_links_succs, (forward_pass_same_links out L g v).
    + intros g fuel oracle feed_dict L g' Hf p.
      by apply same_links_succs,
        (topological_sort_same_links fuel oracle feed_dict g L).
Qed.

Lemma Node_init_back_references_witness :
  succs twice_h 0 = [] ++ replicate 2 1
  ∧ succs example_h 0 = [] ++ [2].
Proof.
  split.
  - assert (Add_new 0 0 [mk_node KInput [] [] (@None Z)] = Ok (1, twice_h)) as E
      by reflexivity.
    exact (proj1 (proj2 (proj2
             (Node_init_back_references (TM := Z_math (λ _ _, None) (λ _, None))
                _ _ _ _ _ E))) 0).
  - assert (Add_new 0 1 [mk_node KInput [] [] (@None Z); mk_node KInput [] [] None]
            = Ok (2, example_h)) as E by reflexivity.
    exact (proj1 (proj2 (proj2 (proj2
             (Node_init_back_references (TM := Z_math (λ _ _, None) (λ _, None))
                _ _ _ _ _ E))))
             0 eq_refl).
Defined.

(** C5.  [Input.forward] called with a value [w] stores [w] in the value
    slot of the node; called with no value, as [forward_pass] calls it, it
    leaves the heap, and so the slot, as it was. *)
Theorem Input_forward_slot {V : Type} {TM : TensorMath V}
    (h : list (node V)) (n : nat) (v : option V) (w : V) :
  kind_of h n = Some KInput → slot h n = v →
  (∃ h', Input_forward n (Some w) h = Ok h' ∧ slot h' n = Some w
         ∧ ∀ x, x ≠ n → slot h' x = slot h x)
  ∧ (∃ h', Input_forward n None h = Ok h' ∧ slot h' n = v ∧ h' = h)
  ∧ (∃ h', forward n h = Ok h' ∧ slot h' n = v ∧ h' = h).
Proof.
  intros Hk Hv. split; [|split].
  - exists (set_value n (Some w) h). split; [done|].
    assert (n < length h) as Hlt.
    { unfold kind_of in Hk. destruct (h !! n) eqn:E; [|done].
      by eapply lookup_lt_Some. }
    split.
    + rewrite set_value_slot, decide_True; done.
    + intros x Hx. rewrite set_value_slot, decide_False; [done|].
      intros [? _]. congruence.
  - by exists h.
  - exists h. split; [|done]. unfold forward, kind_of in *.
    destruct (h !! n) as [nd|] eqn:E; [|done].
    assert (deref h n = Ok nd) as -> by by apply deref_Ok.
    simpl in *. injection Hk as ->. done.
Qed.

Lemma Input_forward_slot_witness :
  (∃ h', Input_forward 0 (Some 7%Z) example_h = Ok h' ∧ slot h' 0 = Some 7%Z
         ∧ ∀ x, x ≠ 0 → slot h' x = slot example_h x)
  ∧ (∃ h', Input_forward 0 None example_h = Ok h' ∧ slot h' 0 = None
           ∧ h' = example_h)
  ∧ (∃ h', forward (TM := Z_math (λ _ _, None) (λ _, None)) 0 example_h = Ok h'
           ∧ slot h' 0 = None ∧ h' = example_h).
Proof.
  apply (Input_forward_slot example_h 0 None 7%Z); reflexivity.
Defined.

(** C6.  [Node.forward] is the single statement [raise NotImplemented].
    Called on a node whose class is [Node] itself, [forward] never returns
    normally, but the exception it ends in is [TypeError], not the
    [NotImplementedError] the statement is after. *)
Theorem Node_forward_raises {V : Type} {TM : TensorMath V}
    (h : list (node V)) (n : nat) :
  kind_of h n = Some KNode →
  Node_forward n h = Raise TypeError
  ∧ forward n h = Raise TypeError
  ∧ forward n h ≠ Raise NotImplementedError
  ∧ ∀ h', forward n h ≠ Ok h'.
Proof.
  intros Hk. split; [done|].
  assert (forward n h = Raise TypeError) as E.
  { unfold forward, kind_of in *. destruct (h !! n) as [nd|] eqn:E; [|done].
    assert (deref h n = Ok nd) as -> by by apply deref_Ok.
    simpl in *. injection Hk as ->. done. }
  split; [done|]. split; [by rewrite E|]. intros h'. by rewrite E.
Qed.

Lemma Node_forward_raises_witness :
  forward (TM := Z_math (λ _ _, None) (λ _, None))
    0 [mk_node KNode [] [] (Some 3%Z)] = Raise TypeError.
Proof.
  exact (proj1 (proj2 (Node_forward_raises
           [mk_node KNode [] [] (Some 3%Z)] 0 eq_refl))).
Defined.

(** * The driver *)

(** C8.  On a heap made by the constructors with an acyclic reachable
    graph, the pair [topological_sort], [forward_pass] has one result:
    whatever the fuel and the oracle of a second sort, started from the
    same heap or from the heap the first pass left behind, the second pass
    returns the same output value (and leaves the same heap). *)
Theorem forward_pass_deterministic {V : Type} {TM : TensorMath V}
    (h : list (node V)) (feed_dict : gmap nat (option V)) (out : nat)
    f1 o1 L1 g1 v hA :
  linked h → feeds_inputs h feed_dict → acyclic h feed_dict →
  topological_sort f1 o1 feed_dict h = Ok (L1, g1) →
  forward_pass out L1 g1 = Ok (v, hA) →
  (∀ f2 o2 L2 g2,
     topological_sort f2 o2 feed_dict h = Ok (L2, g2) →
     forward_pass out L2 g2 = Ok (v, hA))
  ∧ (∀ f2 o2 L2 g2,
       topological_sort f2 o2 feed_dict hA = Ok (L2, g2) →
       forward_pass out L2 g2 = Ok (v, hA)).
Proof.
  intros Hl Hf Hac E1 P1. split.
  - intros f2 o2 L2 g2 E2.
    by apply (rerun h h feed_dict f1 o1 L1 g1 out (v, hA) f2 o2 L2 g2).
  - intros f2 o2 L2 g2 E2.
    apply (rerun h hA feed_dict f1 o1 L1 g1 out (v, hA) f2 o2 L2 g2);
      try done.
    + eapply same_links_trans; [by eapply topological_sort_same_links|].
      by eapply forward_pass_same_links.
    + intros x Hx.
      pose proof (sort_spec h feed_dict Hl Hf f1 o1) as S1. rewrite E1 in S1.
      assert (x ∉ L1) as HxL.
      { intros HxL. apply Hx. by apply (sp_done _ _ _ _ S1). }
      unfold forward_pass in P1. apply bind_Ok in P1 as (hA' & PA & P1).
      apply bind_Ok in P1 as (nd & _ & [= _ <-]).
      rewrite (forward_all_slot_outside L1 g1 hA' PA x HxL).
      rewrite (sp_slot _ _ _ _ S1), decide_False; [done | tauto].
Qed.

Lemma forward_pass_deterministic_witness :
  let TM := Z_math (λ _ _, None) (λ _, None) in
  ∃ g hA,
    topological_sort 4 (λ _, 1) example_feed example_h = Ok ([0; 1; 2], g)
    ∧ forward_pass 2 [0; 1; 2] g = Ok (Some 15%Z, hA)
    ∧ topological_sort 4 (λ _, 1) example_feed hA = Ok ([0; 1; 2], hA)
    ∧ forward_pass 2 [0; 1; 2] hA = Ok (Some 15%Z, hA).
Proof.
  intros TM.
  set (g0 := set_value 0 (Some 5%Z) (set_value 1 (Some 10%Z) example_h)).
  set (hA := set_value 2 (Some 15%Z) g0).
  assert (topological_sort 4 (λ _, 0) example_feed example_h
          = Ok ([1; 0; 2], g0)) as E0 by (vm_compute; reflexivity).
  assert (forward_pass 2 [1; 0; 2] g0 = Ok (Some 15%Z, hA)) as P0
    by (vm_compute; reflexivity).
  destruct (forward_pass_deterministic example_h example_feed 2
              4 (λ _, 0) [1; 0; 2] g0 (Some 15%Z) hA
              example_linked example_feeds example_acyclic E0 P0)
    as [Hsame Hagain].
  assert (topological_sort 4 (λ _, 1) example_feed example_h
          = Ok ([0; 1; 2], g0)) as E1 by (vm_compute; reflexivity).
  assert (topological_sort 4 (λ _, 1) example_feed hA
          = Ok ([0; 1; 2], hA)) as E2 by (vm_compute; reflexivity).
  exists g0, hA. split; [exact E1|]. split; [exact (Hsame _ _ _ _ E1)|].
  split; [exact E2 | exact (Hagain _ _ _ _ E2)].
Defined.

(** C7.  [Add.forward] stores the sum of the values of the first and the
    second predecessor.  For [a = Input()], [b = Input()], [f = Add(a, b)]
    fed [5] and [10], every run of [topological_sort] followed by
    [forward_pass] on [f] returns [15], and such runs exist for every
    oracle; what [np.dot] and [_sigmoid] do plays no part. *)
Theorem Add_forward_sum {V : Type} {TM : TensorMath V}
    (np_dot : Z → Z → option Z) (sigmoid : Z → option Z) :
  (∀ (h : list (node V)) n x y rest vx vy v,
     kind_of h n = Some KAdd → preds h n = x :: y :: rest →
     slot h x = Some vx → slot h y = Some vy → tm_add vx vy = Some v →
     Add_forward n h = Ok (set_value n (Some v) h)
     ∧ forward n h = Ok (set_value n (Some v) h)
     ∧ slot (set_value n (Some v) h) n = Some v)
  ∧ (∀ fuel oracle L g,
       topological_sort fuel oracle example_feed example_h = Ok (L, g) →
       ∃ hA, forward_pass (TM := Z_math np_dot sigmoid) 2 L g
             = Ok (Some 15%Z, hA))
  ∧ (∃ fuel0, ∀ fuel oracle, fuel0 ≤ fuel →
       ∃ L g hA,
         topological_sort fuel oracle example_feed example_h = Ok (L, g)
         ∧ forward_pass (TM := Z_math np_dot sigmoid) 2 L g
           = Ok (Some 15%Z, hA)).
Proof.
  pose (TZ := Z_math np_dot sigmoid).
  set (g0 := set_value 0 (Some 5%Z) (set_value 1 (Some 10%Z) example_h)).
  set (hA := set_value 2 (Some 15%Z) g0).
  assert (topological_sort 4 (λ _, 0) example_feed example_h
          = Ok ([1; 0; 2], g0)) as E0 by (vm_compute; reflexivity).
  assert (forward_pass (TM := TZ) 2 [1; 0; 2] g0 = Ok (Some 15%Z, hA)) as P0
    by reflexivity.
  assert (∀ fuel oracle L g,
            topological_sort fuel oracle example_feed example_h = Ok (L, g) →
            forward_pass (TM := TZ) 2 L g = Ok (Some 15%Z, hA)) as Hall.
  { intros fuel oracle L g E.
    apply (rerun example_h example_h example_feed 4 (λ _, 0) [1; 0; 2] g0 2
             (Some 15%Z, hA) fuel oracle L g example_linked example_feeds
             example_acyclic (same_links_refl _)); done. }
  split; [|split].
  - intros h n x y rest vx vy v Hk Hp Hx Hy Hv.
    assert (Add_forward n h = Ok (set_value n (Some v) h)) as E.
    { unfold Add_forward, kind_of, preds, slot, inbound_value, deref in *.
      destruct (h !! n) as [nd|] eqn:En; [|done]. simpl in *. rewrite Hp.
      simpl.
      destruct (h !! x) as [ndx|]; [|done].
      destruct (h !! y) as [ndy|]; [|done].
      simpl in *. rewrite Hx, Hy. simpl. by rewrite Hv. }
    split; [done|]. split.
    + unfold forward, kind_of, deref in *.
      destruct (h !! n) as [nd|] eqn:En; [|done]. simpl in *.
      injection Hk as ->. done.
    + rewrite set_value_slot, decide_True; [done|]. split; [done|].
      unfold kind_of in Hk. destruct (h !! n) eqn:En; [|done].
      by eapply lookup_lt_Some.
  - intros fuel oracle L g E. exists hA. by eapply Hall.
  - destruct (sort_returns example_h example_feed example_linked example_feeds
                example_acyclic example_preds_nodup) as [fuel0 Hret].
    exists fuel0. intros fuel oracle Hle.
    destruct (Hret fuel oracle Hle) as (L & g & E).
    exists L, g, hA. split; [done|]. by eapply Hall.
Qed.

Lemma Add_forward_sum_witness :
  Add_forward (TM := Z_math (λ _ _, None) (λ _, None))
    2 (set_value 0 (Some 5%Z) (set_value 1 (Some 10%Z) example_h))
  = Ok (set_value 2 (Some 15%Z)
          (set_value 0 (Some 5%Z) (set_value 1 (Some 10%Z) example_h))).
Proof.
  exact (proj1 (proj1 (Add_forward_sum (TM := Z_math (λ _ _, None) (λ _, None))
                         (λ _ _, None) (λ _, None))
    (set_value 0 (Some 5%Z) (set_value 1 (Some 10%Z) example_h))
    2 0 1 [] 5%Z 10%Z 15%Z eq_refl eq_refl eq_refl eq_refl eq_refl)).
Defined.

(** * More on the constructors *)

Lemma network_heap_eq : network_heap = Ok network_h.
Proof. reflexivity. Qed.

(** X1.  What [Node.__init__] leaves alone and what the new object starts
    with: the heap grows by exactly one object; the new object has the
    class it was built for, the value [None] and, unless it is listed
    among its own predecessors, no successor; every other object keeps its
    class, its predecessor list and its value. *)
Theorem Node_init_fresh {V : Type} (k : kind) (inbound : list nat)
    (h : list (node V)) n h' :
  Node_init k inbound h = Ok (n, h') →
  length h' = S (length h)
  ∧ kind_of h' n = Some k
  ∧ slot h' n = None
  ∧ (n ∉ inbound → succs h' n = [])
  ∧ ∀ x, x ≠ n →
      kind_of h' x = kind_of h x ∧ preds h' x = preds h x
      ∧ slot h' x = slot h x.
Proof.
  intros E. pose proof (Node_init_spec k inbound h) as Hs. rewrite E in Hs.
  destruct Hs as (-> & Hlen & _ & Hsu & Hpr & Hki & Hsl).
  split; [done|]. split; [by rewrite Hki, decide_True|].
  split; [rewrite Hsl; unfold slot; by rewrite lookup_ge_None_2|].
  split.
  - intros Hn. rewrite Hsu. unfold succs. rewrite lookup_ge_None_2 by done.
    destruct (occ (length h) inbound) eqn:Ho; [done|].
    destruct Hn. apply elem_of_occ. lia.
  - intros x Hx. by rewrite Hki, Hpr, Hsl, !decide_False.
Qed.

Lemma Node_init_fresh_witness :
  length example_h = 3 ∧ kind_of example_h 2 = Some KAdd
  ∧ slot example_h 2 = None ∧ kind_of example_h 0 = Some KInput.
Proof.
  assert (Add_new 0 1 [mk_node KInput [] [] (@None Z); mk_node KInput [] [] None]
          = Ok (2, example_h)) as E by reflexivity.
  destruct (Node_init_fresh _ _ _ _ _ E) as (Hlen & Hk & Hs & _ & Hold).
  split; [exact Hlen|]. split; [exact Hk|]. split; [exact Hs|].
  destruct (Hold 0) as (Hk0 & _); [lia|]. rewrite Hk0. reflexivity.
Defined.

(** X2.  A node can only be given predecessors that exist already, so the
    constructors keep every link pointing from an older object to a newer
    one: a heap made by constructors alone is linked and has no cycle,
    whatever the feed dictionary. *)
Theorem Node_init_acyclic {V : Type} (k : kind) (inbound : list nat)
    (h : list (node V)) :
  linked h → ordered h →
  (∀ p, p ∈ inbound → p < length h) → (k = KInput → inbound = []) →
  ∃ h', Node_init k inbound h = Ok (length h, h')
        ∧ linked h' ∧ ordered h'
        ∧ ∀ feed_dict, acyclic h' feed_dict.
Proof.
  intros Hl Ho Hb Hk.
  destruct (Node_init_linked k inbound h Hl Hb Hk) as (h' & E & Hl').
  exists h'. split; [done|]. split; [done|].
  assert (ordered h') as Ho'.
  { pose proof (Node_init_spec k inbound h) as Hs. rewrite E in Hs.
    destruct Hs as (_ & _ & _ & Hsu & _).
    intros a b. rewrite Hsu. intros [Hin|Hin]%elem_of_app; [by apply Ho|].
    apply elem_of_replicate in Hin as [-> Hocc].
    apply Hb. apply elem_of_occ. lia. }
  split; [done|]. intros feed_dict. by apply ordered_acyclic.
Qed.

Lemma ordered_nil {V : Type} : ordered (@nil (node V)).
Proof. intros a b. unfold succs. rewrite lookup_nil. by intros ?%elem_of_nil. Qed.

Lemma Node_init_acyclic_witness :
  linked network_h ∧ ordered network_h ∧ acyclic network_h network_feed.
Proof.
  destruct (Node_init_acyclic (V:=term) KInput [] [] linked_nil ordered_nil)
    as (h1 & E1 & L1 & O1 & _); [by intros p ?%elem_of_nil | done |].
  injection E1 as <-.
  destruct (Node_init_acyclic KInput [] _ L1 O1) as (h2 & E2 & L2 & O2 & _);
    [by intros p ?%elem_of_nil | done |].
  injection E2 as <-.
  destruct (Node_init_acyclic KInput [] _ L2 O2) as (h3 & E3 & L3 & O3 & _);
    [by intros p ?%elem_of_nil | done |].
  injection E3 as <-.
  destruct (Node_init_acyclic KLinear [0; 1; 2] _ L3 O3)
    as (h4 & E4 & L4 & O4 & _); [|done|].
  { intros p Hp. simpl. repeat (apply elem_of_cons in Hp as [->|Hp]; [lia|]).
    by apply elem_of_nil in Hp. }
  injection E4 as <-.
  destruct (Node_init_acyclic KSigmoid [3] _ L4 O4)
    as (h5 & E5 & L5 & O5 & A5); [|done|].
  { intros p Hp. simpl. repeat (apply elem_of_cons in Hp as [->|Hp]; [lia|]).
    by apply elem_of_nil in Hp. }
  injection E5 as <-.
  split; [exact L5|]. split; [exact O5 | exact (A5 network_feed)].
Defined.

(** * More on the [forward] methods *)

Lemma forward_kind {V : Type} {TM : TensorMath V} (h : list (node V)) n k :
  kind_of h n = Some k →
  forward n h =
    match k with
    | KNode => Node_forward n h
    | KInput => Input_forward n None h
    | KAdd => Add_forward n h
    | KLinear => Linear_forward n h
    | KSigmoid => Sigmoid_forward n h
    end.
Proof.
  unfold forward, kind_of, deref. destruct (h !! n) as [nd|]; [|done].
  simpl. by intros [= ->].
Qed.

Lemma inbound_value_slot {V : Type} (h : list (node V)) nd i p :
  inbound_nodes nd !! i = Some p → p < length h →
  inbound_value h nd i = Ok (slot h p).
Proof.
  intros Hp Hlt. unfold inbound_value, deref, slot. rewrite Hp.
  destruct (lookup_lt_is_Some_2 h p Hlt) as [q ->]. done.
Qed.

Lemma slot_Some_lt {V : Type} (h : list (node V)) p v :
  slot h p = Some v → p < length h.
Proof.
  unfold slot. destruct (h !! p) eqn:E; [|done]. intros _.
  by eapply lookup_lt_Some.
Qed.

Lemma kind_of_lt {V : Type} (h : list (node V)) n k :
  kind_of h n = Some k → n < length h.
Proof.
  unfold kind_of. destruct (h !! n) eqn:E; [|done]. intros _.
  by eapply lookup_lt_Some.
Qed.

(** X3.  [Linear.forward] reads its three predecessors in the order
    inputs, weights, bias and stores [np.dot(inputs, weights) + bias] in
    the value slot of the node, which is the only slot it writes. *)
Theorem Linear_forward_affine {V : Type} {TM : TensorMath V}
    (h : list (node V)) n x w b rest vx vw vb d v :
  kind_of h n = Some KLinear → preds h n = x :: w :: b :: rest →
  slot h x = Some vx → slot h w = Some vw → slot h b = Some vb →
  tm_dot vx vw = Some d → tm_add d vb = Some v →
  ∃ h', Linear_forward n h = Ok h' ∧ forward n h = Ok h'
        ∧ slot h' n = Some v ∧ ∀ y, y ≠ n → slot h' y = slot h y.
Proof.
  intros Hk Hp Hx Hw Hb Hd Hv. exists (set_value n (Some v) h).
  assert (Linear_forward n h = Ok (set_value n (Some v) h)) as E.
  { unfold Linear_forward, preds, deref in *.
    pose proof (kind_of_lt _ _ _ Hk) as Hlt.
    destruct (h !! n) as [nd|] eqn:En; [|done]. simpl.
    rewrite (inbound_value_slot h nd 0 x), (inbound_value_slot h nd 1 w),
      (inbound_value_slot h nd 2 b);
      try (by rewrite Hp); try (by eapply slot_Some_lt).
    rewrite Hx, Hw, Hb. simpl. rewrite Hd. simpl. by rewrite Hv. }
  split; [done|]. split; [by rewrite (forward_kind h n KLinear)|].
  split.
  - rewrite set_value_slot, decide_True; [done|].
    split; [done | by eapply kind_of_lt].
  - intros y Hy. rewrite set_value_slot, decide_False; [done|].
    intros [? _]. congruence.
Qed.

Lemma Linear_forward_affine_witness :
  ∃ h', forward (TM := term_math) 3 network_fed = Ok h'
        ∧ slot h' 3 = Some (Plus (Dot (Num 2) (Num 3)) (Num 4))
        ∧ slot h' 0 = Some (Num 2).
Proof.
  destruct (Linear_forward_affine (TM := term_math)
              network_fed 3 0 1 2 [] (Num 2) (Num 3) (Num 4)
              (Dot (Num 2) (Num 3)) (Plus (Dot (Num 2) (Num 3)) (Num 4))
              eq_refl eq_refl eq_refl eq_refl eq_refl eq_refl eq_refl)
    as (h' & _ & E & Hs & Hother).
  exists h'. split; [exact E|]. split; [exact Hs|].
  rewrite Hother; [reflexivity | lia].
Defined.

(** X4.  [Sigmoid.forward] applies [_sigmoid] to the value of its first
    predecessor and stores the result in the value slot of the node, which
    is the only slot it writes. *)
Theorem Sigmoid_forward_activation {V : Type} {TM : TensorMath V}
    (h : list (node V)) n x rest vx v :
  kind_of h n = Some KSigmoid → preds h n = x :: rest →
  slot h x = Some vx → tm_sigmoid vx = Some v →
  ∃ h', Sigmoid_forward n h = Ok h' ∧ forward n h = Ok h'
        ∧ slot h' n = Some v ∧ ∀ y, y ≠ n → slot h' y = slot h y.
Proof.
  intros Hk Hp Hx Hv. exists (set_value n (Some v) h).
  assert (Sigmoid_forward n h = Ok (set_value n (Some v) h)) as E.
  { unfold Sigmoid_forward, preds, deref in *.
    destruct (h !! n) as [nd|] eqn:En; [|done]. simpl.
    rewrite (inbound_value_slot h nd 0 x);
      try (by rewrite Hp); try (by eapply slot_Some_lt).
    rewrite Hx. simpl. by rewrite Hv. }
  split; [done|]. split; [by rewrite (forward_kind h n KSigmoid)|].
  split.
  - rewrite set_value_slot, decide_True; [done|].
    split; [done | by eapply kind_of_lt].
  - intros y Hy. rewrite set_value_slot, decide_False; [done|].
    intros [? _]. congruence.
Qed.

Lemma Sigmoid_forward_activation_witness :
  ∃ h', forward (TM := term_math) 4 (set_value 3 (Some (Num 10)) network_fed)
        = Ok h'
        ∧ slot h' 4 = Some (Sig (Num 10)).
Proof.
  destruct (Sigmoid_forward_activation (TM := term_math)
              (set_value 3 (Some (Num 10)) network_fed) 4 3 [] (Num 10)
              (Sig (Num 10)) eq_refl eq_refl eq_refl eq_refl)
    as (h' & _ & E & Hs & _).
  exists h'. split; [exact E | exact Hs].
Defined.

(** X5.  Evaluating a node too early fails: when [forward] is called on an
    [Add] or [Sigmoid] node one of whose operands still has the value
    [None], or on a [Linear] node whose inputs or weights do, the call ends
    in [TypeError] and returns no heap. *)
Theorem forward_unset_operand {V : Type} {TM : TensorMath V}
    (h : list (node V)) n k i p :
  kind_of h n = Some k →
  (∀ j, j < operands k → ∃ q, preds h n !! j = Some q ∧ q < length h) →
  i < operands k → (k = KLinear → i < 2) →
  preds h n !! i = Some p → slot h p = None →
  forward n h = Raise TypeError.
Proof.
  intros Hk Hall Hi Hlin Hp Hs. rewrite (forward_kind h n k Hk).
  pose proof (kind_of_lt _ _ _ Hk) as Hlt.
  unfold preds in *. unfold Add_forward, Linear_forward, Sigmoid_forward, deref.
  destruct (lookup_lt_is_Some_2 h n Hlt) as [nd En]. rewrite En in *.
  destruct k; simpl in Hi; try lia; simpl.
  - destruct (Hall 0) as (q0 & Hq0 & Hl0); [simpl; lia|].
    destruct (Hall 1) as (q1 & Hq1 & Hl1); [simpl; lia|].
    rewrite (inbound_value_slot h nd 0 q0), (inbound_value_slot h nd 1 q1)
      by done. simpl.
    destruct i as [|[|i]]; [| |lia]; simplify_eq; rewrite Hs; simpl;
      [done|]. by destruct (slot h q0).
  - destruct (Hall 0) as (q0 & Hq0 & Hl0); [simpl; lia|].
    destruct (Hall 1) as (q1 & Hq1 & Hl1); [simpl; lia|].
    destruct (Hall 2) as (q2 & Hq2 & Hl2); [simpl; lia|].
    rewrite (inbound_value_slot h nd 0 q0), (inbound_value_slot h nd 1 q1),
      (inbound_value_slot h nd 2 q2) by done. simpl.
    specialize (Hlin eq_refl).
    destruct i as [|[|i]]; [| |lia]; simplify_eq; rewrite Hs; simpl.
    + done.
    + by destruct (slot h q0).
  - destruct (Hall 0) as (q0 & Hq0 & Hl0); [simpl; lia|].
    rewrite (inbound_value_slot h nd 0 q0) by done. simpl.
    destruct i as [|i]; [|lia]. simplify_eq. by rewrite Hs.
Qed.

Lemma forward_unset_operand_witness :
  forward (TM := Z_math (λ _ _, None) (λ _, None)) 2 example_h
  = Raise TypeError.
Proof.
  apply (forward_unset_operand example_h 2 KAdd 1 1); try reflexivity;
    [|simpl; lia|discriminate].
  intros j Hj. destruct j as [|[|j]]; simpl in *;
    [exists 0 | exists 1 | lia]; split; (reflexivity || lia).
Defined.

(** X6.  With a commutative [+] the order of the two arguments of [Add]
    does not matter: [Add(x, y)] and [Add(y, x)] evaluated in the same heap
    store the same value, and one fails when the other does. *)
Theorem Add_forward_commutes {V : Type} {TM : TensorMath V}
    (h : list (node V)) n1 n2 x y :
  (∀ a b : V, tm_add a b = tm_add b a) →
  kind_of h n1 = Some KAdd → kind_of h n2 = Some KAdd →
  preds h n1 = [x; y] → preds h n2 = [y; x] →
  x < length h → y < length h →
  (∀ h1, forward n1 h = Ok h1 →
     ∃ h2, forward n2 h = Ok h2 ∧ slot h2 n2 = slot h1 n1)
  ∧ (∀ e, forward n1 h = Raise e → forward n2 h = Raise e).
Proof.
  intros Hc Hk1 Hk2 Hp1 Hp2 Hx Hy.
  assert (∀ n a b, kind_of h n = Some KAdd → preds h n = [a; b] →
            a < length h → b < length h →
            forward n h = v ← py_binop tm_add (slot h a) (slot h b);
                          Ok (set_value n (Some v) h)) as Hf.
  { intros n a b Hk Hp Ha Hb. rewrite (forward_kind h n KAdd Hk).
    pose proof (kind_of_lt _ _ _ Hk) as Hlt.
    unfold Add_forward, preds, deref in *.
    destruct (lookup_lt_is_Some_2 h n Hlt) as [nd En]. rewrite En in *. simpl.
    by rewrite (inbound_value_slot h nd 0 a), (inbound_value_slot h nd 1 b)
      by (done || by rewrite Hp). }
  rewrite (Hf n1 x y), (Hf n2 y x) by done.
  assert (py_binop tm_add (slot h y) (slot h x)
          = py_binop tm_add (slot h x) (slot h y)) as ->.
  { unfold py_binop. destruct (slot h x), (slot h y); try done.
    by rewrite Hc. }
  destruct (py_binop tm_add (slot h x) (slot h y)) as [v|e|]; simpl.
  - split; [|done]. intros h1 [= <-]. eexists. split; [done|].
    rewrite !set_value_slot, !decide_True; [done | |];
      (split; [done | by eapply kind_of_lt]).
  - split; [done|]. by intros e' [= <-].
  - split; done.
Qed.

Lemma Add_forward_commutes_witness :
  ∃ h2, forward (TM := Z_math (λ _ _, None) (λ _, None)) 3
          [mk_node KInput [] [2; 3] (Some 5%Z);
           mk_node KInput [] [2; 3] (Some 10%Z);
           mk_node KAdd [0; 1] [] None;
           mk_node KAdd [1; 0] [] None] = Ok h2
        ∧ slot h2 3 = Some 15%Z.
Proof.
  set (TZ := Z_math (λ _ _, None) (λ _, None)).
  set (h := [mk_node KInput [] [2; 3] (Some 5%Z);
             mk_node KInput [] [2; 3] (Some 10%Z);
             mk_node KAdd [0; 1] [] None;
             mk_node KAdd [1; 0] [] (@None Z)]).
  destruct (Add_forward_commutes (TM := TZ) h 2 3 0 1) as [Hok _];
    try reflexivity; try (simpl; lia).
  { intros a b. simpl. f_equal. lia. }
  destruct (Hok (set_value 2 (Some 15%Z) h) eq_refl) as (h2 & E & Hs).
  exists h2. split; [exact E|]. rewrite Hs. reflexivity.
Defined.

(** * More on the driver *)

Lemma forward_no_fuel {V : Type} {TM : TensorMath V} (h : list (node V)) n :
  forward n h ≠ OutOfFuel.
Proof.
  rewrite forward_node_value.
  unfold node_value, inbound_value, py_binop, py_unop, deref.
  repeat (case_match; simpl; try done).
Qed.

Lemma forward_all_base_class {V : Type} {TM : TensorMath V} n L :
  ∀ h : list (node V), n ∈ L → kind_of h n = Some KNode →
  ∃ e, forward_all L h = Raise e.
Proof.
  induction L as [|a L IH]; intros h Hin Hk; [by apply elem_of_nil in Hin|].
  simpl. destruct (forward a h) as [h1|e|] eqn:E; simpl.
  - apply elem_of_cons in Hin as [->|Hin].
    + by rewrite (forward_kind h a KNode Hk) in E.
    + apply IH; [done|].
      by rewrite (same_links_kind h h1 n (forward_same_links a h h1 E)).
  - by exists e.
  - by destruct (forward_no_fuel h a).
Qed.

(** X7.  [forward_pass] changes nothing but the value slots of the nodes
    in [sorted_nodes]: all links and classes stay, the slot of a node that
    is not in the list keeps its value, and what is returned is the slot
    of [output_node] as the loop left it (as it was before the call when
    [output_node] is not in the list). *)
Theorem forward_pass_frame {V : Type} {TM : TensorMath V}
    (output_node : nat) (sorted_nodes : list nat) (h : list (node V)) v h' :
  forward_pass output_node sorted_nodes h = Ok (v, h') →
  same_links h h'
  ∧ (∀ x, x ∉ sorted_nodes → slot h' x = slot h x)
  ∧ v = slot h' output_node
  ∧ (output_node ∉ sorted_nodes → v = slot h output_node).
Proof.
  intros P. pose proof (forward_pass_same_links _ _ _ _ _ P) as Hl.
  unfold forward_pass in P. apply bind_Ok in P as (hA & PA & P).
  apply bind_Ok in P as (nd & Hd%deref_Ok & [= <- <-]).
  pose proof (forward_all_slot_outside _ _ _ PA) as Hout.
  assert (value nd = slot hA output_node) as Hv
    by (unfold slot; by rewrite Hd).
  split; [done|]. split; [done|]. split; [done|].
  intros Hn. by rewrite Hv, Hout.
Qed.

Lemma forward_pass_frame_witness :
  let TM := Z_math (λ _ _, None) (λ _, None) in
  ∃ v h', forward_pass 0 [2]
            (set_value 0 (Some 5%Z) (set_value 1 (Some 10%Z) example_h))
          = Ok (v, h')
          ∧ v = Some 5%Z ∧ slot h' 1 = Some 10%Z.
Proof.
  intros TM.
  set (g0 := set_value 0 (Some 5%Z) (set_value 1 (Some 10%Z) example_h)).
  assert (forward_pass 0 [2] g0 = Ok (Some 5%Z, set_value 2 (Some 15%Z) g0))
    as P by reflexivity.
  destruct (forward_pass_frame _ _ _ _ _ P) as (_ & Hout & _ & Hv).
  exists (Some 5%Z), (set_value 2 (Some 15%Z) g0).
  split; [exact P|]. split; [reflexivity|].
  rewrite Hout; [reflexivity|].
  intros Hx%list_elem_of_singleton. discriminate Hx.
Defined.

(** X8.  A pass over a list that contains an object of the base class
    [Node] never returns a value: it ends in an exception, raised at that
    object at the latest. *)
Theorem forward_pass_base_class {V : Type} {TM : TensorMath V}
    (output_node : nat) (sorted_nodes : list nat) (h : list (node V)) n :
  n ∈ sorted_nodes → kind_of h n = Some KNode →
  (∃ e, forward_pass output_node sorted_nodes h = Raise e)
  ∧ ∀ r, forward_pass output_node sorted_nodes h ≠ Ok r.
Proof.
  intros Hin Hk.
  destruct (forward_all_base_class n sorted_nodes h Hin Hk) as [e E].
  unfold forward_pass. rewrite E. simpl. split; [by exists e | done].
Qed.

Lemma forward_pass_base_class_witness :
  forward_pass (TM := Z_math (λ _ _, None) (λ _, None)) 1 [0; 1]
    [mk_node KInput [] [1] (Some 1%Z); mk_node KNode [0] [] None]
  = Raise TypeError.
Proof.
  destruct (forward_pass_base_class (TM := Z_math (λ _ _, None) (λ _, None))
              1 [0; 1]
              [mk_node KInput [] [1] (Some 1%Z); mk_node KNode [0] [] None] 1)
    as [[e E] _]; [|reflexivity|].
  { apply elem_of_cons. right. apply list_elem_of_singleton. reflexivity. }
  reflexivity.
Defined.

Lemma evaluation_order_pass {V : Type} {TM : TensorMath V}
    (h : list (node V)) L hA :
  evaluation_order h L → forward_all L h = Ok hA →
  same_links h hA
  ∧ (∀ x, x ∉ L → slot hA x = slot h x)
  ∧ (∀ x, x ∈ L → node_value hA x = Ok (slot hA x))
  ∧ (∀ x, x ∈ L → kind_of h x = Some KInput → slot hA x = slot h x).
Proof.
  intros [Hnd Ho] PA.
  apply (pass_char h L Hnd Ho L [] h hA eq_refl (same_links_refl h));
    [|done].
  by intros x ?%elem_of_nil.
Qed.

(** X9.  The result of [forward_pass] does not depend on which
    topological order it is given: two lists with the same members, in
    each of which every node comes after those of its predecessors that
    are in the list, give the same output value and the same heap. *)
Theorem forward_pass_order_independent {V : Type} {TM : TensorMath V}
    (h : list (node V)) (output_node : nat) (L1 L2 : list nat) r :
  evaluation_order h L1 → evaluation_order h L2 →
  (∀ x, x ∈ L1 ↔ x ∈ L2) →
  forward_pass output_node L1 h = Ok r →
  forward_pass output_node L2 h = Ok r.
Proof.
  intros Ho1 [Hnd2 Ho2] Hsame P. unfold forward_pass in *.
  apply bind_Ok in P as (hA & PA & P).
  destruct (evaluation_order_pass h L1 hA Ho1 PA) as (HlA & Hout & Hall & Hin).
  assert (forward_all L2 h = Ok hA) as ->; [|done].
  apply (pass_replay h L2 Hnd2 Ho2 hA L2 HlA) with (done := []).
  - intros x Hx. apply Hall. by apply Hsame.
  - done.
  - unfold same_links in *. done.
  - by intros x ?%elem_of_nil.
  - intros x Hx. symmetry. apply Hout. by rewrite Hsame.
  - intros x Hx Hk. symmetry. apply Hin; [by apply Hsame | done].
Qed.

Lemma example_order_012 (g : list (node Z)) :
  same_links example_h g → evaluation_order g [0; 1; 2].
Proof.
  intros Hl. split.
  - repeat (apply NoDup_cons; split;
            [rewrite ?elem_of_cons, elem_of_nil; lia|]).
    apply NoDup_nil_2.
  - intros done m rest HL p Hp _.
    rewrite (same_links_preds _ _ m Hl) in Hp.
    destruct done as [|d0 [|d1 [|d2 done]]]; simplify_eq/=.
    + by apply elem_of_nil in Hp.
    + by apply elem_of_nil in Hp.
    + done.
    + by destruct done.
Qed.

Lemma example_order_102 (g : list (node Z)) :
  same_links example_h g → evaluation_order g [1; 0; 2].
Proof.
  intros Hl. split.
  - repeat (apply NoDup_cons; split;
            [rewrite ?elem_of_cons, elem_of_nil; lia|]).
    apply NoDup_nil_2.
  - intros done m rest HL p Hp _.
    rewrite (same_links_preds _ _ m Hl) in Hp.
    destruct done as [|d0 [|d1 [|d2 done]]]; simplify_eq/=.
    + by apply elem_of_nil in Hp.
    + by apply elem_of_nil in Hp.
    + unfold preds in Hp. simpl in Hp.
      apply elem_of_cons in Hp as [->|Hp]; [apply elem_of_cons; right; by left|].
      apply list_elem_of_singleton in Hp as ->. by left.
    + by destruct done.
Qed.

Lemma forward_pass_order_independent_witness :
  let TM := Z_math (λ _ _, None) (λ _, None) in
  ∃ hA,
    forward_pass 2 [0; 1; 2]
      (set_value 0 (Some 5%Z) (set_value 1 (Some 10%Z) example_h))
    = Ok (Some 15%Z, hA)
    ∧ forward_pass 2 [1; 0; 2]
        (set_value 0 (Some 5%Z) (set_value 1 (Some 10%Z) example_h))
      = Ok (Some 15%Z, hA).
Proof.
  intros TM.
  set (g0 := set_value 0 (Some 5%Z) (set_value 1 (Some 10%Z) example_h)).
  assert (same_links example_h g0) as Hl.
  { eapply same_links_trans; apply set_value_same_links. }
  assert (forward_pass 2 [0; 1; 2] g0
          = Ok (Some 15%Z, set_value 2 (Some 15%Z) g0)) as P by reflexivity.
  exists (set_value 2 (Some 15%Z) g0). split; [exact P|].
  exact (forward_pass_order_independent g0 2 [0; 1; 2] [1; 0; 2] _
           (example_order_012 g0 Hl) (example_order_102 g0 Hl)
           ltac:(intros x; rewrite !elem_of_cons, !elem_of_nil; tauto) P).
Defined.

(** X10.  A pass over a topological order reaches a fixed point: after it
    every node of the list holds what its own [forward] computes from the
    heap as it is, so calling [forward] on it again changes nothing, and a
    second pass over the same list returns the same value and the same
    heap. *)
Theorem forward_pass_idempotent {V : Type} {TM : TensorMath V}
    (h : list (node V)) (output_node : nat) (L : list nat) v hA :
  evaluation_order h L →
  forward_pass output_node L h = Ok (v, hA) →
  (∀ x, x ∈ L → forward x hA = Ok hA)
  ∧ forward_pass output_node L hA = Ok (v, hA).
Proof.
  intros Ho P. unfold forward_pass in *.
  apply bind_Ok in P as (hA' & PA & P).
  apply bind_Ok in P as (nd & Hd & [= <- <-]).
  destruct (evaluation_order_pass h L hA' Ho PA) as (HlA & Hout & Hall & Hin).
  destruct Ho as [Hnd Ho]. split.
  - intros x Hx. rewrite forward_node_value, (Hall x Hx). simpl.
    pose proof (node_value_Ok_lt _ _ _ (Hall x Hx)) as Hlt.
    destruct (lookup_lt_is_Some_2 hA' x Hlt) as [nx Hnx].
    unfold slot. rewrite Hnx. simpl. by rewrite (set_value_id x nx hA').
  - assert (forward_all L hA' = Ok hA') as ->; [|simpl; by rewrite Hd].
    apply (pass_replay h L Hnd Ho hA' L HlA Hall) with (done := []);
      done.
Qed.

Lemma forward_pass_idempotent_witness :
  let TM := Z_math (λ _ _, None) (λ _, None) in
  ∃ hA,
    forward_pass 2 [1; 0; 2]
      (set_value 0 (Some 5%Z) (set_value 1 (Some 10%Z) example_h))
    = Ok (Some 15%Z, hA)
    ∧ forward 2 hA = Ok hA
    ∧ forward_pass 2 [1; 0; 2] hA = Ok (Some 15%Z, hA).
Proof.
  intros TM.
  set (g0 := set_value 0 (Some 5%Z) (set_value 1 (Some 10%Z) example_h)).
  assert (same_links example_h g0) as Hl.
  { eapply same_links_trans; apply set_value_same_links. }
  assert (forward_pass 2 [1; 0; 2] g0
          = Ok (Some 15%Z, set_value 2 (Some 15%Z) g0)) as P by reflexivity.
  destruct (forward_pass_idempotent g0 2 [1; 0; 2] _ _
              (example_order_102 g0 Hl) P) as [Hfix Hagain].
  exists (set_value 2 (Some 15%Z) g0). split; [exact P|].
  split; [|exact Hagain].
  apply Hfix. rewrite !elem_of_cons. tauto.
Defined.

(** * More on the sorter *)

(** X11.  With an empty feed dictionary neither loop is entered:
    [topological_sort] returns the empty list and leaves the heap as it
    is, whatever the heap. *)
Theorem topological_sort_no_feed {V : Type} (h : list (node V))
    (fuel : nat) (oracle : nat → nat) :
  topological_sort fuel oracle ∅ h = Ok ([], h).
Proof.
  unfold topological_sort. rewrite map_to_list_empty.
  destruct fuel; reflexivity.
Qed.

(** X12.  The first loop builds the graph of what is reachable: it raises
    nothing, and when it ends the keys of [G] are the nodes reachable from
    the keys of the feed dictionary, [G[x]['out']] is the set of
    successors of [x] and [G[x]['in']] the set of reachable predecessors
    of [x].  On an acyclic graph it does end. *)
Theorem discover_reachable_graph {V : Type} (h : list (node V))
    (feed_dict : gmap nat (option V)) :
  valid h feed_dict →
  (∀ fuel e, discover fuel h (map_to_list feed_dict).*1 ∅ ≠ Raise e)
  ∧ (∀ fuel G, discover fuel h (map_to_list feed_dict).*1 ∅ = Ok G →
       (∀ x, x ∈ dom G ↔ reachable h feed_dict x)
       ∧ (∀ x m, m ∈ outsG G x ↔ reachable h feed_dict x ∧ m ∈ succs h x)
       ∧ (∀ x p, p ∈ insG G x ↔ reachable h feed_dict p ∧ x ∈ succs h p))
  ∧ (acyclic h feed_dict →
     ∃ fuel0, ∀ fuel, fuel0 ≤ fuel →
       ∃ G, discover fuel h (map_to_list feed_dict).*1 ∅ = Ok G).
Proof.
  intros Hv.
  assert (∀ fuel,
            match discover fuel h (map_to_list feed_dict).*1 ∅ with
            | Ok G' => graph_of h feed_dict G'
            | Raise _ => False
            | OutOfFuel => True
            end) as Hd.
  { intros fuel.
    apply (discover_spec h feed_dict fuel ∅ _ ∅ Hv
             (discover_inv_init h feed_dict)). }
  split; [|split].
  - intros fuel e E. specialize (Hd fuel). by rewrite E in Hd.
  - intros fuel G E. specialize (Hd fuel). rewrite E in Hd.
    destruct Hd as [Hdom Houts Hins]. done.
  - intros Hac.
    set (c := λ y, walks h (height h (S (length h)) y) y).
    exists (sum_list (c <$> (map_to_list feed_dict).*1)).
    intros fuel Hle. specialize (Hd fuel).
    pose proof (discover_fuel h feed_dict c fuel (map_to_list feed_dict).*1 ∅
                  Hv) as Hdf.
    destruct (discover fuel h (map_to_list feed_dict).*1 ∅) as [G|e|];
      [by exists G | done |].
    exfalso. apply Hdf; [| |done|done].
    + intros x Hx. by apply (walks_cost h feed_dict).
    + intros x Hx%elem_of_keys. by apply reach_fed.
Qed.

Lemma discover_reachable_graph_witness :
  ∃ G, discover 4 example_h (map_to_list example_feed).*1 ∅ = Ok G
       ∧ dom G = {[0; 1; 2]} ∧ outsG G 0 = {[2]} ∧ insG G 2 = {[0; 1]}.
Proof.
  destruct (discover_reachable_graph example_h example_feed
              (linked_valid _ _ example_linked example_feeds))
    as (_ & Hgraph & _).
  assert (∃ G, discover 4 example_h (map_to_list example_feed).*1 ∅ = Ok G)
    as [G E] by (vm_compute; eexists; reflexivity).
  exists G. split; [done|].
  destruct (Hgraph 4 G E) as (Hdom & Houts & Hins).
  assert (∀ x, reachable example_h example_feed x ↔ x = 0 ∨ x = 1 ∨ x = 2)
    as Hre.
  { intros x. split.
    - induction 1 as [k Hk|n m _ IH Hm].
      + unfold example_feed in Hk.
        rewrite dom_insert_L, dom_singleton_L in Hk. set_solver.
      + destruct IH as [-> | [-> | ->]]; unfold succs in Hm; simpl in Hm;
          set_solver.
    - intros Hx. apply example_reachable. lia. }
  split; [|split].
  - apply set_eq. intros x. rewrite Hdom, Hre. set_solver.
  - apply set_eq. intros m. rewrite Houts, Hre. unfold succs. simpl.
    set_solver.
  - apply set_eq. intros p. rewrite Hins, Hre. unfold succs.
    destruct p as [|[|[|p]]]; simpl; set_solver.
Defined.

Lemma release_step n m rest G ready :
  release n (m :: rest) G ready = Raise KeyError
  ∨ ∃ G2 ready2,
      release n (m :: rest) G ready = release n rest G2 ready2
      ∧ m ∈ outsG G n
      ∧ outsG G2 n = outsG G n ∖ {[m]}.
Proof.
  simpl. unfold lookupG.
  destruct (G !! n) as [gn|] eqn:En; simpl; [|by left].
  destruct (decide (m ∈ outs gn)); [|by left].
  destruct (<[n:=mk_ends (ins gn) (outs gn ∖ {[m]})]> G !! m) as [gm|] eqn:Em;
    simpl; [|by left].
  destruct (decide (n ∈ ins gm)); [|by left].
  rewrite lookup_insert_eq. simpl.
  right.
  assert (outsG (<[m:=mk_ends (ins gm ∖ {[n]}) (outs gm)]>
                   (<[n:=mk_ends (ins gn) (outs gn ∖ {[m]})]> G)) n
          = outsG G n ∖ {[m]}) as Hout.
  { rewrite (outsG_lookup G n gn En), outsG_insert.
    destruct (decide (m = n)) as [->|Hmn].
    - rewrite lookup_insert_eq in Em. by injection Em as <-.
    - by rewrite outsG_insert, decide_True. }
  assert (m ∈ outsG G n) as Hm by by rewrite (outsG_lookup G n gn En).
  destruct (decide (size (ins gm ∖ {[n]}) = 0)); eauto.
Qed.

Lemma release_absent n ms :
  ∀ G ready m, m ∈ ms → m ∉ outsG G n →
  release n ms G ready = Raise KeyError.
Proof.
  induction ms as [|a ms IH]; intros G ready m Hin Hout;
    [by apply elem_of_nil in Hin|].
  destruct (release_step n a ms G ready) as [E|(G2 & r2 & -> & Ha & HG2)];
    [done|].
  apply elem_of_cons in Hin as [->|Hin]; [done|].
  apply (IH G2 r2 m Hin). rewrite HG2. set_solver.
Qed.

(** X13.  The inner loop of the second [while] loop cannot go through a
    successor list that names a node twice: whatever [G] and [S] hold, the
    run over [n.outbound_nodes] ends in [KeyError], at the second removal
    of the repeated edge at the latest. *)
Theorem release_repeated (n : nat) (ms : list nat) (G : gmap nat ends)
    (ready : gset nat) :
  ¬ NoDup ms → release n ms G ready = Raise KeyError.
Proof.
  revert G ready. induction ms as [|a ms IH]; intros G ready Hdup.
  - destruct Hdup. apply NoDup_nil_2.
  - destruct (release_step n a ms G ready) as [E|(G2 & r2 & -> & _ & HG2)];
      [done|].
    destruct (decide (a ∈ ms)) as [Ha|Ha].
    + apply (release_absent n ms G2 r2 a Ha). rewrite HG2. set_solver.
    + apply IH. intros Hnd. apply Hdup. by apply NoDup_cons.
Qed.

Lemma release_repeated_witness :
  release 0 [1; 1] {[ 0 := mk_ends ∅ {[1]}; 1 := mk_ends {[0]} ∅ ]} {[0]}
  = Raise KeyError.
Proof.
  apply release_repeated. intros Hnd. apply NoDup_cons in Hnd as [Hn _].
  apply Hn. by apply list_elem_of_singleton.
Defined.
